(** * ArduinoRover: command ingestion, liveness gate, kinematics and fork smoothing

    A shallow embedding of [ArduinoRover/ArduinoRover.ino].

    Numbers are modelled the way the sketch declares them on its 32-bit
    ARM target:
    - [int] and [unsigned long] are 32-bit; they are [Z] with the
      wrap-around ([wrap_int], [wrap_ulong]) written out;
    - [double] is IEEE-754 binary64 and [float] is binary32; both use the
      Standard Library's [spec_float];
    - [servo_target] and [current_servo] are [float] variables that only ever
      hold integers (they are assigned from an [int] and stepped by one), so
      [loop] keeps them as [Z] with the binary32 rounding ([float_of_int])
      written out.  That rounding is proved equal to the IEEE conversion
      ([float_of_int_binary32]).  The smoothing loop is also given on IEEE
      values ([while_moving_binary32]); within [2^24] of zero, where a float
      holds every integer, the two loops are proved to agree
      ([while_moving_refines]);
    - the wheel computation is kept on IEEE values.  Each binary32
      operation is proved to return a value within one part in [2^23] of
      the exact result, which bounds the distance between the computed
      wheel commands and the formula of the specification
      ([wheel_analysis], [duty_analysis]);
    - a byte stream is a [list byte]; a listener with no client is [None].

    The while loop of [loop] may run forever, so it takes fuel and returns
    [None] when the fuel runs out.  Serial logging is left out: nothing reads
    it back. *)

From Stdlib Require Import ZArith List Bool Lia QArith Qabs Qpower Lqa.
From Stdlib Require Import Floats.SpecFloat.
From Stdlib Require Import Strings.Byte.
Import ListNotations.
Open Scope Z_scope.

(** ** Machine integers *)

Definition INT_MIN : Z := - 2 ^ 31.

Definition INT_MAX : Z := 2 ^ 31 - 1.

(** Conversion of an out-of-range value to [int]: two's complement. *)
Definition wrap_int (z : Z) : Z := (z + 2 ^ 31) mod 2 ^ 32 - 2 ^ 31.

(** Conversion to [unsigned long], and arithmetic in it: modulo [2^32]. *)
Definition wrap_ulong (z : Z) : Z := z mod 2 ^ 32.

(** Floating-point to [int] conversions saturate in the ARM run-time library. *)
Definition sat_int (z : Z) : Z := Z.max INT_MIN (Z.min z INT_MAX).

(** ** IEEE-754 values *)

Definition binary32_prec : Z := 24.

Definition binary32_emax : Z := 128.

Definition binary64_prec : Z := 53.

Definition binary64_emax : Z := 1024.

(** The integer part of a float, rounded toward zero; infinities are
    resolved by the caller. *)
Definition SFtrunc (x : spec_float) : Z :=
  match x with
  | S754_finite s m e => cond_Zopp s (Z.shiftl (Zpos m) e)
  | _ => 0
  end.

(** [(int) x] for a [float] or [double] [x]: truncation, saturating at the
    ends of [int]; a NaN gives 0. *)
Definition int_of_float (x : spec_float) : Z :=
  match x with
  | S754_infinity s => if s then INT_MIN else INT_MAX
  | _ => sat_int (SFtrunc x)
  end.

(** The magnitude of a finite float, and its exact value, as rationals. *)
Definition SFmagnitude (m : positive) (e : Z) : Q :=
  if 0 <=? e then inject_Z (Zpos m * 2 ^ e)
  else Qmake (Zpos m) (Z.to_pos (2 ^ (- e))).

Definition SF2Q (x : spec_float) : Q :=
  match x with
  | S754_finite s m e =>
      if s then Qopp (SFmagnitude m e) else SFmagnitude m e
  | _ => 0%Q
  end.

(** *** The [doubleConvert] union: eight bytes read as a little-endian double *)

Fixpoint le_bits (bs : list byte) : Z :=
  match bs with
  | [] => 0
  | b :: tl => Z.of_N (Byte.to_N b) + 256 * le_bits tl
  end.

Definition double_of_bits (w : Z) : spec_float :=
  let s := Z.testbit w 63 in
  let e := Z.land (Z.shiftr w 52) 2047 in
  let m := Z.land w (2 ^ 52 - 1) in
  if e =? 0 then
    match m with
    | Zpos p => S754_finite s p (-1074)
    | _ => S754_zero s
    end
  else if e =? 2047 then
    if m =? 0 then S754_infinity s else S754_nan
  else
    match m + 2 ^ 52 with
    | Zpos p => S754_finite s p (e - 1075)
    | _ => S754_nan
    end.

Definition doubleConvert_num (array : list byte) : spec_float :=
  double_of_bits (le_bits array).

(** [(double) n] for an [int] [n] is exact. *)
Definition double_of_int (n : Z) : spec_float :=
  binary_normalize binary64_prec binary64_emax n 0 false.

(** *** Integer-valued binary32 *)

(** The quotient of [m] by [u], rounded to nearest, ties to even. *)
Definition round_quotient (m u : Z) : Z :=
  let q := m / u in
  match 2 * (m mod u) ?= u with
  | Lt => q
  | Gt => q + 1
  | Eq => if Z.even q then q else q + 1
  end.

(** The binary32 value nearest to the integer [z], ties to even.  Every
    integer up to [2^24] in magnitude is a binary32 value; above that the
    values are [2 ^ (log2 |z| - 23)] apart.  [float_of_int_binary32] proves
    it equal to the IEEE conversion. *)
Definition float_of_int (z : Z) : Z :=
  let a := Z.abs z in
  if a <=? 2 ^ 24 then z
  else
    let u := 2 ^ (Z.log2 a - 23) in
    Z.sgn z * (round_quotient a u * u).

(** ** Arithmetic of the wheel computation *)

(** The binary32 operations of the sketch. *)
Definition binary32_of_int (z : Z) : spec_float :=
  binary_normalize binary32_prec binary32_emax z 0 false.

Definition binary32_add : spec_float -> spec_float -> spec_float :=
  SFadd binary32_prec binary32_emax.

Definition binary32_sub : spec_float -> spec_float -> spec_float :=
  SFsub binary32_prec binary32_emax.

Definition binary32_mul : spec_float -> spec_float -> spec_float :=
  SFmul binary32_prec binary32_emax.

Definition binary32_div : spec_float -> spec_float -> spec_float :=
  SFdiv binary32_prec binary32_emax.

(** The operations [vels_drive_wheels] uses on [float]; the sketch runs
    them in binary32. *)
Class FloatOps (F : Type) : Type := {
  of_int : Z -> F;
  fadd : F -> F -> F;
  fsub : F -> F -> F;
  fmul : F -> F -> F;
  fdiv : F -> F -> F;
  to_int : F -> Z
}.

#[export] Instance binary32_ops : FloatOps spec_float := {
  of_int := binary32_of_int;
  fadd := binary32_add;
  fsub := binary32_sub;
  fmul := binary32_mul;
  fdiv := binary32_div;
  to_int := int_of_float
}.

(** ** Hardware calls *)

(** What the sketch asks of the motor carrier and of the scheduler, in
    program order. *)
Inductive event : Type :=
  | servo3_setAngle (angle : Z)
  | delay (ms : Z)
  | M1_setDuty (duty : Z)
  | M2_setDuty (duty : Z).

Definition FORK_MIN : Z := 128.

Definition FORK_MAX : Z := 180.

(** [setServo]: the commanded position is limited to the fork range, then
    handed to the servo.  The limited value is an integer of the range, so
    its conversion to the [int] argument of [setAngle] is exact. *)
Definition setServo (dec : Z) : list event :=
  let dec := Z.max FORK_MIN (Z.min dec FORK_MAX) in
  [servo3_setAngle dec].

(** [driveMotors]: the right motor is mounted the other way round. *)
Definition driveMotors (l r : Z) : list event :=
  [M1_setDuty (wrap_int (- r)); M2_setDuty l].

Section Kinematics.

Context {F : Type} {ops : FloatOps F}.

(** The two local variables of [vels_drive_wheels]. *)
Definition wheel_l (lin_v ang_v : F) : F :=
  fsub (fdiv (fmul (of_int 2) lin_v) (of_int 9))
       (fdiv (fmul (of_int 17) ang_v) (of_int 18)).

Definition wheel_r (lin_v ang_v : F) : F :=
  fadd (fdiv (fmul (of_int 17) ang_v) (of_int 18))
       (fdiv (fmul (of_int 2) lin_v) (of_int 9)).

(** The products by 10 are converted to the [int] parameters of
    [driveMotors]. *)
Definition vels_drive_wheels (lin_v ang_v : F) : list event :=
  driveMotors (to_int (fmul (wheel_l lin_v ang_v) (of_int 10)))
              (to_int (fmul (wheel_r lin_v ang_v) (of_int 10))).

End Kinematics.

(** ** Global variables *)

Record globals : Type := {
  fork_new : bool;
  doubleConvert : list byte;
  servo_target : Z;
  current_servo : Z;
  _get_vel_vel : Z;
  _get_vel_time : Z;
  _get_ang_vel : Z;
  _get_ang_time : Z;
  _get_fork_pos : Z
}.

(** The initialisers of the sketch.  [setup] leaves them as they are: it
    only swings the servo to [FORK_MAX] and back to [FORK_MIN]. *)
Definition initial_globals : globals := {|
  fork_new := false;
  doubleConvert := repeat x00 8;
  servo_target := FORK_MIN;
  current_servo := FORK_MIN;
  _get_vel_vel := 0;
  _get_vel_time := 0;
  _get_ang_vel := 0;
  _get_ang_time := 0;
  _get_fork_pos := 0
|}.

Definition with_fork_new (b : bool) (g : globals) : globals :=
  {| fork_new := b; doubleConvert := doubleConvert g;
     servo_target := servo_target g; current_servo := current_servo g;
     _get_vel_vel := _get_vel_vel g; _get_vel_time := _get_vel_time g;
     _get_ang_vel := _get_ang_vel g; _get_ang_time := _get_ang_time g;
     _get_fork_pos := _get_fork_pos g |}.

Definition with_doubleConvert (a : list byte) (g : globals) : globals :=
  {| fork_new := fork_new g; doubleConvert := a;
     servo_target := servo_target g; current_servo := current_servo g;
     _get_vel_vel := _get_vel_vel g; _get_vel_time := _get_vel_time g;
     _get_ang_vel := _get_ang_vel g; _get_ang_time := _get_ang_time g;
     _get_fork_pos := _get_fork_pos g |}.

Definition with_servo_target (x : Z) (g : globals) : globals :=
  {| fork_new := fork_new g; doubleConvert := doubleConvert g;
     servo_target := x; current_servo := current_servo g;
     _get_vel_vel := _get_vel_vel g; _get_vel_time := _get_vel_time g;
     _get_ang_vel := _get_ang_vel g; _get_ang_time := _get_ang_time g;
     _get_fork_pos := _get_fork_pos g |}.

Definition with_current_servo (x : Z) (g : globals) : globals :=
  {| fork_new := fork_new g; doubleConvert := doubleConvert g;
     servo_target := servo_target g; current_servo := x;
     _get_vel_vel := _get_vel_vel g; _get_vel_time := _get_vel_time g;
     _get_ang_vel := _get_ang_vel g; _get_ang_time := _get_ang_time g;
     _get_fork_pos := _get_fork_pos g |}.

Definition with_vel (v : Z) (g : globals) : globals :=
  {| fork_new := fork_new g; doubleConvert := doubleConvert g;
     servo_target := servo_target g; current_servo := current_servo g;
     _get_vel_vel := v; _get_vel_time := _get_vel_time g;
     _get_ang_vel := _get_ang_vel g; _get_ang_time := _get_ang_time g;
     _get_fork_pos := _get_fork_pos g |}.

Definition with_vel_time (t : Z) (g : globals) : globals :=
  {| fork_new := fork_new g; doubleConvert := doubleConvert g;
     servo_target := servo_target g; current_servo := current_servo g;
     _get_vel_vel := _get_vel_vel g; _get_vel_time := t;
     _get_ang_vel := _get_ang_vel g; _get_ang_time := _get_ang_time g;
     _get_fork_pos := _get_fork_pos g |}.

Definition with_ang_vel (v : Z) (g : globals) : globals :=
  {| fork_new := fork_new g; doubleConvert := doubleConvert g;
     servo_target := servo_target g; current_servo := current_servo g;
     _get_vel_vel := _get_vel_vel g; _get_vel_time := _get_vel_time g;
     _get_ang_vel := v; _get_ang_time := _get_ang_time g;
     _get_fork_pos := _get_fork_pos g |}.

Definition with_ang_time (t : Z) (g : globals) : globals :=
  {| fork_new := fork_new g; doubleConvert := doubleConvert g;
     servo_target := servo_target g; current_servo := current_servo g;
     _get_vel_vel := _get_vel_vel g; _get_vel_time := _get_vel_time g;
     _get_ang_vel := _get_ang_vel g; _get_ang_time := t;
     _get_fork_pos := _get_fork_pos g |}.

Definition with_fork_pos (p : Z) (g : globals) : globals :=
  {| fork_new := fork_new g; doubleConvert := doubleConvert g;
     servo_target := servo_target g; current_servo := current_servo g;
     _get_vel_vel := _get_vel_vel g; _get_vel_time := _get_vel_time g;
     _get_ang_vel := _get_ang_vel g; _get_ang_time := _get_ang_time g;
     _get_fork_pos := p |}.

(** ** TCP parsing *)

(** What a listener's [available()] hands back: no client, or a client with
    its buffered bytes. *)
Definition client : Type := option (list byte).

Definition sizeof_double : nat := 8.

(** The common head of the three listeners: with a client holding at least
    [sizeof(double)] bytes, [read] moves that many into [doubleConvert.array].
    The result is the client after the read and, when a message was taken,
    the double it holds. *)
Definition receive (c : client) (g : globals)
  : client * option spec_float * globals :=
  match c with
  | Some buf =>
      if (sizeof_double <=? length buf)%nat then
        let g' := with_doubleConvert (firstn sizeof_double buf) g in
        (Some (skipn sizeof_double buf),
         Some (doubleConvert_num (doubleConvert g')), g')
      else (c, None, g)
  | None => (c, None, g)
  end.

(** [get_vel].  [rx_millis] is what [millis()] returns when a message is
    stored, [chk_millis] what it returns in the staleness test. *)
Definition get_vel (vel_client : client) (rx_millis chk_millis : Z)
    (g : globals) : Z * client * globals :=
  let '(vel_client', msg, g) := receive vel_client g in
  let g :=
    match msg with
    | Some num => with_vel_time (wrap_int rx_millis)
                    (with_vel (int_of_float num) g)
    | None => g
    end in
  let g :=
    if 500 <? wrap_ulong (chk_millis - wrap_ulong (_get_vel_time g))
    then with_vel 0 g else g in
  (_get_vel_vel g, vel_client', g).

Definition get_ang_vel (ang_client : client) (rx_millis chk_millis : Z)
    (g : globals) : Z * client * globals :=
  let '(ang_client', msg, g) := receive ang_client g in
  let g :=
    match msg with
    | Some num => with_ang_time (wrap_int rx_millis)
                    (with_ang_vel (int_of_float num) g)
    | None => g
    end in
  let g :=
    if 500 <? wrap_ulong (chk_millis - wrap_ulong (_get_ang_time g))
    then with_ang_vel 0 g else g in
  (_get_ang_vel g, ang_client', g).

(** [get_fork] returns [_get_fork_pos] as a [double], which holds every
    [int] exactly: the result is that integer. *)
Definition get_fork (fork_client : client) (g : globals)
  : Z * client * globals :=
  let '(fork_client', msg, g) := receive fork_client g in
  let g :=
    match msg with
    | Some num => with_fork_new true (with_fork_pos (int_of_float num) g)
    | None => g
    end in
  (_get_fork_pos g, fork_client', g).

(** ** The main loop *)

(** The blocking smoothing loop on [current_servo], towards [target]. *)
Fixpoint while_moving (fuel : nat) (current target : Z)
  : option (list event * Z) :=
  if current =? target then Some ([], current)
  else
    match fuel with
    | O => None
    | S fuel' =>
        let current' :=
          if current <? target then float_of_int (current + 1)
          else if target <? current then float_of_int (current - 1)
          else current in
        match while_moving fuel' current' target with
        | Some (tr, final) =>
            Some (setServo current' ++ delay 20 :: tr, final)
        | None => None
        end
    end.

(** What one pass of [loop] finds on its three listeners and its clock. *)
Record inputs : Type := {
  vel_client : client;
  vel_rx_millis : Z;
  vel_chk_millis : Z;
  ang_client : client;
  ang_rx_millis : Z;
  ang_chk_millis : Z;
  fork_client : client
}.

Definition loop (fuel : nat) (i : inputs) (g : globals)
  : option (list event * globals) :=
  let '(vel, _, g) :=
    get_vel (vel_client i) (vel_rx_millis i) (vel_chk_millis i) g in
  let '(ang_vel, _, g) :=
    get_ang_vel (ang_client i) (ang_rx_millis i) (ang_chk_millis i) g in
  let '(target, _, g) := get_fork (fork_client i) g in
  let g := with_servo_target (float_of_int target) g in
  let moved :=
    if fork_new g then
      match while_moving fuel (current_servo g) (servo_target g) with
      | Some (tr, final) =>
          Some (tr, with_fork_new false (with_current_servo final g))
      | None => None
      end
    else Some ([], g) in
  match moved with
  | Some (tr, g) =>
      Some (tr ++ vels_drive_wheels (F := spec_float)
                    (of_int vel) (of_int ang_vel), g)
  | None => None
  end.

(** Successive passes of [loop], each with its own inputs and fuel. *)
Fixpoint run (fuel : nat) (passes : list inputs) (g : globals)
  : option (list event * globals) :=
  match passes with
  | [] => Some ([], g)
  | i :: passes' =>
      match loop fuel i g with
      | Some (tr, g') =>
          match run fuel passes' g' with
          | Some (tr', g'') => Some (tr ++ tr', g'')
          | None => None
          end
      | None => None
      end
  end.

(** ** The smoothing loop on IEEE values *)

(** [setServo] and the while loop of [loop] once more, this time with every
    [float] operation of the sketch as the IEEE binary32 operation it is:
    [min] and [max] are the comparisons of the Arduino core, [+= 1] and
    [-= 1] are rounded sums, [!=], [<] and [>] are the IEEE comparisons, and
    the argument of [setAngle] is converted to [int].  [while_moving] is the
    reading of this loop on integers; [while_moving_refines] states that the
    two agree. *)
Definition setServo_binary32 (dec : spec_float) : list event :=
  let upper := if SFltb (binary32_of_int FORK_MAX) dec
               then binary32_of_int FORK_MAX else dec in
  let dec := if SFltb (binary32_of_int FORK_MIN) upper then upper
             else binary32_of_int FORK_MIN in
  [servo3_setAngle (int_of_float dec)].

Fixpoint while_moving_binary32 (fuel : nat) (current target : spec_float)
  : option (list event * spec_float) :=
  if SFeqb current target then Some ([], current)
  else
    match fuel with
    | O => None
    | S fuel' =>
        let current' :=
          if SFltb current target
          then binary32_add current (binary32_of_int 1)
          else if SFltb target current
          then binary32_sub current (binary32_of_int 1)
          else current in
        match while_moving_binary32 fuel' current' target with
        | Some (tr, final) =>
            Some (setServo_binary32 current' ++ delay 20 :: tr, final)
        | None => None
        end
    end.

(** A result of the integer loop, with its final position as a float. *)
Definition in_binary32 (r : option (list event * Z))
  : option (list event * spec_float) :=
  match r with
  | Some (tr, final) => Some (tr, binary32_of_int final)
  | None => None
  end.

(** [holds P q e]: the binary32 float with the 24-digit mantissa [q] and the
    exponent [e] is the integer [P] of [1 .. 2^24].  The equation
    [q * 2^e = P] is written with the common factor [2^23], so that no power
    is negative. *)
Definition holds (P : Z) (q : positive) (e : Z) : Prop :=
  Zpos (digits2_pos q) = 24 /\ -23 <= e <= 1
  /\ Zpos q * 2 ^ (e + 23) = P * 2 ^ 23.

(** ** Specification vocabulary *)

(** A poll that finds no complete message: no client, or fewer than eight
    buffered bytes. *)
Definition silent (c : client) : Prop :=
  match c with
  | Some buf => (length buf < sizeof_double)%nat
  | None => True
  end.

(** The angles handed to the servo in a trace, and its pauses, in order. *)
Definition servo_calls (tr : list event) : list Z :=
  flat_map (fun e => match e with servo3_setAngle a => [a] | _ => [] end) tr.

Definition pauses (tr : list event) : list Z :=
  flat_map (fun e => match e with delay ms => [ms] | _ => [] end) tr.

(** The positions a ramp from [current] to [target] goes through: the
    [k]-th is [k] units away from [current], on the side of [target]. *)
Definition ramp_positions (current target : Z) : list Z :=
  map (fun k => if current <? target then current + Z.of_nat k
                else current - Z.of_nat k)
      (seq 1 (Z.to_nat (Z.abs (target - current)))).

(** One servo command and one 20 ms pause per position. *)
Definition ramp (current target : Z) : list event :=
  flat_map (fun p => setServo p ++ [delay 20]) (ramp_positions current target).

(** Time since [last] on the 32-bit millisecond clock. *)
Definition elapsed (now last : Z) : Z := wrap_ulong (now - last).

(** Successive polls of one velocity listener: the values returned. *)
Fixpoint poll_vel (polls : list (client * Z * Z)) (g : globals)
  : list Z * globals :=
  match polls with
  | [] => ([], g)
  | (c, rx, now) :: rest =>
      let '(v, _, g') := get_vel c rx now g in
      let '(vs, g'') := poll_vel rest g' in
      (v :: vs, g'')
  end.

Fixpoint poll_ang_vel (polls : list (client * Z * Z)) (g : globals)
  : list Z * globals :=
  match polls with
  | [] => ([], g)
  | (c, rx, now) :: rest =>
      let '(v, _, g') := get_ang_vel c rx now g in
      let '(vs, g'') := poll_ang_vel rest g' in
      (v :: vs, g'')
  end.

(** Integers from [lo], [n] of them. *)
Definition Zrange (lo : Z) (n : nat) : list Z :=
  map (fun k => lo + Z.of_nat k) (seq 0 n).

(** The part of the globals the smoothing reads and writes. *)
Definition fork_state (g : globals) : bool * Z * Z * Z :=
  (fork_new g, servo_target g, current_servo g, _get_fork_pos g).

(** The fork command a poll decodes, if any. *)
Definition fork_message (c : client) : option Z :=
  match c with
  | Some buf =>
      if (sizeof_double <=? length buf)%nat
      then Some (int_of_float (doubleConvert_num (firstn sizeof_double buf)))
      else None
  | None => None
  end.

(** ** Messages and passes of the scenarios *)

(** 150.0, 200.0, [2^25 = 33554432.0], 0.5 and 150.5 as little-endian
    doubles. *)
Definition fork_150 : list byte := [x00; x00; x00; x00; x00; xc0; x62; x40].
Definition fork_200 : list byte := [x00; x00; x00; x00; x00; x00; x69; x40].
Definition fork_2p25 : list byte := [x00; x00; x00; x00; x00; x00; x80; x41].
Definition vel_half : list byte := [x00; x00; x00; x00; x00; x00; xe0; x3f].
Definition fork_150_5 : list byte := [x00; x00; x00; x00; x00; xd0; x62; x40].

(** One pass with nothing on the velocity listeners and [msg] on the fork
    listener. *)
Definition fork_only (msg : list byte) : inputs := {|
  vel_client := None; vel_rx_millis := 1000; vel_chk_millis := 1000;
  ang_client := None; ang_rx_millis := 1000; ang_chk_millis := 1000;
  fork_client := Some msg
|}.

(** One pass that finds no client on any listener, at clock reading [now]. *)
Definition quiet (now : Z) : inputs := {|
  vel_client := None; vel_rx_millis := now; vel_chk_millis := now;
  ang_client := None; ang_rx_millis := now; ang_chk_millis := now;
  fork_client := None
|}.

(** ** Start-up and the whole sketch *)

(** What [setup] asks of the board besides the calls of [loop]. *)
Inductive boot_event : Type :=
  | controller_begin
  | controller_reboot
  | WiFi_begin
  | server_begin (port : Z)
  | board (e : event).

(** [setup] either gets to its end or stays in its [while(true)]. *)
Inductive boot : Type :=
  | halts (tr : list boot_event)
  | returns (tr : list boot_event).

(** [setup].  [status] is what [WiFi.begin] returns; [WL_CONNECTED] is the
    constant of the WiFi library it is compared with. *)
Definition setup (WL_CONNECTED status : Z) : boot :=
  let tr := [controller_begin; controller_reboot; board (delay 500);
             WiFi_begin] in
  if negb (status =? WL_CONNECTED) then halts tr
  else
    returns (tr ++ [server_begin 25000; server_begin 25002;
                    server_begin 25001]
                ++ map board (setServo FORK_MAX ++ [delay 500]
                              ++ setServo FORK_MIN ++ [delay 500])).

(** The sketch: [setup], then passes of [loop] from the initialisers.  The
    result is the trace and the globals after the last pass, if it is
    reached. *)
Definition sketch (WL_CONNECTED status : Z) (fuel : nat)
    (passes : list inputs) : option (list boot_event * globals) :=
  match setup WL_CONNECTED status with
  | halts _ => None
  | returns tr0 =>
      match run fuel passes initial_globals with
      | Some (tr, g) => Some (tr0 ++ map board tr, g)
      | None => None
      end
  end.

(** ** More vocabulary *)

(** The calls of [loop]'s kind in a trace of the sketch. *)
Definition board_calls (tr : list boot_event) : list event :=
  flat_map (fun b => match b with board e => [e] | _ => [] end) tr.

(** The duties handed to the two motors in a trace, in order. *)
Definition duties (tr : list event) : list Z :=
  flat_map (fun e => match e with
                     | M1_setDuty d => [d]
                     | M2_setDuty d => [d]
                     | _ => []
                     end) tr.

(** A call of the smoothing block: the servo or a pause. *)
Definition is_fork_event (e : event) : Prop :=
  match e with
  | servo3_setAngle _ => True
  | delay _ => True
  | _ => False
  end.

(** [setServo]'s limit. *)
Definition clamp (dec : Z) : Z := Z.max FORK_MIN (Z.min dec FORK_MAX).

(** The value a fork or velocity message carries. *)
Definition decode (msg : list byte) : Z := int_of_float (doubleConvert_num msg).

(** Successive polls of the fork listener on one client, each on the bytes
    the poll before left, with no new bytes arriving in between. *)
Fixpoint drain_fork (n : nat) (c : client) (g : globals)
  : list Z * client * globals :=
  match n with
  | O => ([], c, g)
  | S k =>
      let '(v, c', g') := get_fork c g in
      let '(vs, c'', g'') := drain_fork k c' g' in
      (v :: vs, c'', g'')
  end.

(** The four globals of the two velocity listeners. *)
Definition vel_state (g : globals) : Z * Z * Z * Z :=
  (_get_vel_vel g, _get_vel_time g, _get_ang_vel g, _get_ang_time g).

(** The sum of a list of pauses. *)
Definition total (l : list Z) : Z := fold_right Z.add 0 l.

(** Successive elements differ by one at most. *)
Fixpoint one_step_apart (l : list Z) : Prop :=
  match l with
  | a :: (b :: _) as rest => Z.abs (b - a) <= 1 /\ one_step_apart rest
  | _ => True
  end.

(** ** The values of binary32 floats *)


(** The relative distance between neighbouring binary32 values: [2^-23]. *)
Definition ulp_ratio : Q := 1 # 8388608.



(** ** The formula of the specification *)



(** [close_to R T]: [R] is within one part in [2^23] of [T], as the result
    of one binary32 operation is of the exact result. *)
Definition close_to (R T : Q) : Prop :=
  (Qabs (R - T) <= ulp_ratio * Qabs T)%Q.

(** ** Machine arithmetic facts *)

Lemma wrap_ulong_minus (a b : Z) :
  wrap_ulong (a - wrap_ulong b) = wrap_ulong (a - b).
Proof. unfold wrap_ulong. apply Zminus_mod_idemp_r. Qed.

Lemma wrap_ulong_wrap_int (z : Z) : wrap_ulong (wrap_int z) = wrap_ulong z.
Proof.
  unfold wrap_ulong, wrap_int.
  rewrite Zminus_mod_idemp_l.
  replace (z + 2 ^ 31 - 2 ^ 31) with z by lia.
  reflexivity.
Qed.

Lemma elapsed_since_stored (now t : Z) :
  wrap_ulong (now - wrap_ulong (wrap_int t)) = elapsed now t.
Proof.
  unfold elapsed.
  rewrite wrap_ulong_wrap_int, wrap_ulong_minus. reflexivity.
Qed.

Lemma wrap_int_id (z : Z) : INT_MIN <= z <= INT_MAX -> wrap_int z = z.
Proof.
  unfold INT_MIN, INT_MAX, wrap_int. intros Hz.
  rewrite Z.mod_small by lia. lia.
Qed.

Lemma sat_int_range (z : Z) : INT_MIN <= sat_int z <= INT_MAX.
Proof. unfold sat_int, INT_MIN, INT_MAX. lia. Qed.

Lemma int_of_float_range (x : spec_float) :
  INT_MIN <= int_of_float x <= INT_MAX.
Proof.
  destruct x as [s | s | | s m e]; simpl; try apply sat_int_range.
  destruct s; unfold INT_MIN, INT_MAX; lia.
Qed.

Lemma float_of_int_exact (z : Z) :
  Z.abs z <= 2 ^ 24 -> float_of_int z = z.
Proof.
  intros Hz. unfold float_of_int.
  destruct (Z.abs z <=? 2 ^ 24) eqn:E; [reflexivity | ].
  apply Z.leb_gt in E. lia.
Qed.

Lemma elapsed_no_wrap (last now : Z) :
  0 <= last <= now -> now < 2 ^ 32 ->
  elapsed now (wrap_int last) = now - last.
Proof.
  intros Hl Hn. unfold elapsed.
  rewrite <- wrap_ulong_minus, wrap_ulong_wrap_int, wrap_ulong_minus.
  unfold wrap_ulong. apply Z.mod_small. lia.
Qed.

Lemma elapsed_after (t d : Z) :
  0 <= d < 2 ^ 32 -> elapsed (t + d) t = d.
Proof.
  intros Hd. unfold elapsed, wrap_ulong.
  replace (t + d - t) with d by lia. now apply Z.mod_small.
Qed.

(** [SFtrunc] drops the fraction: its magnitude is the integer part of the
    float's magnitude, and its sign is the float's. *)
Lemma SFtrunc_toward_zero (s : bool) (m : positive) (e : Z) :
  let a := Z.shiftl (Zpos m) e in
  SFtrunc (S754_finite s m e) = (if s then - a else a)
  /\ 0 <= a
  /\ (inject_Z a <= SFmagnitude m e)%Q
  /\ (SFmagnitude m e < inject_Z (a + 1))%Q.
Proof.
  intros a. split; [destruct s; reflexivity | ].
  unfold SFmagnitude, a.
  destruct (0 <=? e) eqn:E.
  - apply Z.leb_le in E.
    rewrite Z.shiftl_mul_pow2 by exact E.
    split; [apply Z.mul_nonneg_nonneg; [lia | apply Z.pow_nonneg; lia] | ].
    split.
    + apply Qle_refl.
    + rewrite <- Zlt_Qlt. lia.
  - apply Z.leb_gt in E.
    rewrite <- Z.shiftr_opp_r, Z.shiftr_div_pow2 by lia.
    assert (Hpow : 0 < 2 ^ (- e)) by (apply Z.pow_pos_nonneg; lia).
    split; [apply Z.div_pos; lia | ].
    unfold Qle, Qlt. cbn [Qnum Qden inject_Z].
    rewrite Z2Pos.id by exact Hpow.
    split.
    + rewrite Z.mul_1_r, Z.mul_comm. apply Z.mul_div_le. exact Hpow.
    + rewrite Z.mul_1_r, Z.mul_comm.
      apply Z.mul_succ_div_gt. exact Hpow.
Qed.

(** ** Binary32 on integers *)

Lemma digits2_pos_size (p : positive) : digits2_pos p = Pos.size p.
Proof. induction p; simpl; congruence. Qed.

Lemma digits2_pos_bounds (p : positive) :
  2 ^ (Zpos (digits2_pos p) - 1) <= Zpos p < 2 ^ Zpos (digits2_pos p).
Proof.
  rewrite digits2_pos_size.
  pose proof (Pos.size_gt p) as Hgt. pose proof (Pos.size_le p) as Hle.
  apply Pos2Z.pos_lt_pos in Hgt. apply Pos2Z.pos_le_pos in Hle.
  rewrite Pos2Z.inj_pow in Hgt, Hle.
  change (Z.pos p~0) with (2 * Z.pos p) in Hle.
  replace (Z.pos (Pos.size p)) with (Z.succ (Z.pos (Pos.size p) - 1)) in Hle at 1 by lia.
  rewrite Z.pow_succ_r in Hle by lia. lia.
Qed.

Lemma digits2_pos_unique (p : positive) (d : Z) :
  2 ^ (d - 1) <= Zpos p < 2 ^ d -> Zpos (digits2_pos p) = d.
Proof.
  intros [Hlo Hhi]. pose proof (digits2_pos_bounds p) as [Blo Bhi].
  assert (Hd : 0 < d).
  { destruct (Z.lt_trichotomy d 0) as [H | [H | H]]; [ | | exact H].
    - rewrite Z.pow_neg_r in Hhi by lia. lia.
    - subst d. simpl in Hhi. lia. }
  destruct (Z.lt_trichotomy (Zpos (digits2_pos p)) d) as [H | [H | H]];
    [ | exact H | ].
  - assert (2 ^ Zpos (digits2_pos p) <= 2 ^ (d - 1))
      by (apply Z.pow_le_mono_r; lia).
    lia.
  - assert (2 ^ d <= 2 ^ (Zpos (digits2_pos p) - 1))
      by (apply Z.pow_le_mono_r; lia).
    lia.
Qed.

Lemma iter_xO_value (p k : positive) :
  Zpos (Pos.iter xO p k) = Zpos p * 2 ^ Zpos k.
Proof.
  induction k as [ | k IH] using Pos.peano_ind.
  - simpl. lia.
  - rewrite Pos.iter_succ, Pos2Z.inj_succ, Z.pow_succ_r by lia.
    change (Zpos (Pos.iter xO p k)~0) with (2 * Zpos (Pos.iter xO p k)).
    rewrite IH. lia.
Qed.

Lemma iter_pos_iter {A : Type} (f : A -> A) (n : positive) :
  forall x, iter_pos f n x = Pos.iter f x n.
Proof.
  induction n as [n IH | n IH | ]; intros x; simpl.
  - rewrite !IH. rewrite <- Pos.iter_swap. rewrite <- Pos.iter_swap. reflexivity.
  - now rewrite !IH.
  - reflexivity.
Qed.

Lemma iter_shr_1_exact (q k : positive) :
  iter_pos shr_1 k
    {| shr_m := Zpos (Pos.iter xO q k); shr_r := false; shr_s := false |}
  = {| shr_m := Zpos q; shr_r := false; shr_s := false |}.
Proof.
  rewrite iter_pos_iter.
  induction k as [ | k IH] using Pos.peano_ind.
  - reflexivity.
  - rewrite !Pos.iter_succ.
    rewrite <- Pos.iter_swap. cbn [shr_1]. exact IH.
Qed.

(** A mantissa of exactly 24 digits with an exponent in range needs no
    rounding. *)
Lemma binary_round_aux_exact (s : bool) (q : positive) (e : Z) :
  Zpos (digits2_pos q) = 24 -> -149 <= e <= 104 ->
  binary_round_aux binary32_prec binary32_emax s (Zpos q) e loc_Exact
  = S754_finite s q e.
Proof.
  intros Hd He.
  unfold binary_round_aux, shr_fexp, fexp, emin, binary32_prec, binary32_emax.
  cbn [Zdigits2 shr_record_of_loc]. rewrite Hd.
  replace (Z.max (24 + e - 24) (3 - 128 - 24) - e) with 0 by lia.
  cbn [shr shr_m loc_of_shr_record round_nearest_even Zdigits2
       shr_record_of_loc].
  rewrite Hd.
  replace (Z.max (24 + e - 24) (3 - 128 - 24) - e) with 0 by lia.
  cbn [shr shr_m].
  assert ((e <=? 128 - 24) = true) as -> by (apply Z.leb_le; lia).
  reflexivity.
Qed.

(** A value that a 24-digit mantissa [q] holds at exponent [e'] rounds to
    exactly that float. *)
Lemma binary_round_exact (s : bool) (x q : positive) (e e' : Z) :
  Zpos (digits2_pos q) = 24 -> -149 <= e' <= 104 ->
  (e' <= e -> Zpos q = Zpos x * 2 ^ (e - e')) ->
  (e <= e' -> Zpos x = Zpos q * 2 ^ (e' - e)) ->
  binary_round binary32_prec binary32_emax s x e = S754_finite s q e'.
Proof.
  intros Hd He' Hle Hge.
  pose proof (digits2_pos_bounds q) as Bq. rewrite Hd in Bq.
  change (24 - 1) with 23 in Bq.
  unfold binary_round.
  destruct (Z_le_gt_dec e' e) as [Hcase | Hcase].
  - specialize (Hle Hcase).
    assert (Hdx : Zpos (digits2_pos x) = 24 - (e - e')).
    { apply digits2_pos_unique.
      assert (0 < 2 ^ (e - e')) by (apply Z.pow_pos_nonneg; lia).
      replace (24 - (e - e') - 1) with (23 - (e - e')) by lia.
      destruct (Z_le_gt_dec (e - e') 23) as [Hs | Hs].
      + assert (H23 : 2 ^ 23 = 2 ^ (23 - (e - e')) * 2 ^ (e - e'))
          by (rewrite <- Z.pow_add_r by lia; f_equal; lia).
        assert (H24 : 2 ^ 24 = 2 ^ (24 - (e - e')) * 2 ^ (e - e'))
          by (rewrite <- Z.pow_add_r by lia; f_equal; lia).
        rewrite H23, H24, Hle in Bq. nia.
      + exfalso.
        assert (2 ^ 24 <= 2 ^ (e - e')) by (apply Z.pow_le_mono_r; lia).
        nia. }
    unfold fexp, emin, binary32_prec, binary32_emax. rewrite Hdx.
    replace (Z.max (24 - (e - e') + e - 24) (3 - 128 - 24)) with e' by lia.
    unfold shl_align.
    destruct (e' - e) as [ | j | j] eqn:Ej.
    + assert (e = e') by lia. subst e'.
      rewrite Z.sub_diag, Z.mul_1_r in Hle. injection Hle as <-.
      now apply binary_round_aux_exact.
    + lia.
    + assert (Hq : q = Pos.iter xO x j).
      { apply Pos2Z.inj. rewrite iter_xO_value, Hle. do 2 f_equal. lia. }
      rewrite <- Hq. now apply binary_round_aux_exact.
  - specialize (Hge ltac:(lia)).
    assert (Hdx : Zpos (digits2_pos x) = 24 + (e' - e)).
    { apply digits2_pos_unique.
      replace (24 + (e' - e) - 1) with (23 + (e' - e)) by lia.
      rewrite !Z.pow_add_r by lia.
      assert (0 < 2 ^ (e' - e)) by (apply Z.pow_pos_nonneg; lia).
      nia. }
    unfold fexp, emin, binary32_prec, binary32_emax. rewrite Hdx.
    replace (Z.max (24 + (e' - e) + e - 24) (3 - 128 - 24)) with e' by lia.
    unfold shl_align.
    destruct (e' - e) as [ | n | n] eqn:En; try lia.
    unfold binary_round_aux, shr_fexp, fexp, emin.
    cbn [Zdigits2 shr_record_of_loc]. rewrite Hdx.
    replace (Z.max (24 + Z.pos n + e - 24) (3 - 128 - 24) - e) with (Zpos n)
      by lia.
    cbn [shr].
    assert (Hx : x = Pos.iter xO q n).
    { apply Pos2Z.inj. rewrite iter_xO_value. exact Hge. }
    rewrite Hx, iter_shr_1_exact.
    cbn [shr_m loc_of_shr_record round_nearest_even Zdigits2
         shr_record_of_loc].
    rewrite Hd.
    replace (Z.max (24 + (e + Z.pos n) - 24) (3 - 128 - 24) - (e + Z.pos n))
      with 0 by lia.
    cbn [shr shr_m].
    assert ((e + Z.pos n <=? 128 - 24) = true) as -> by (apply Z.leb_le; lia).
    f_equal. lia.
Qed.

Lemma holds_exists (P : Z) :
  1 <= P <= 2 ^ 24 -> exists q e, holds P q e.
Proof.
  intros HP.
  destruct P as [ | p | p]; try lia.
  pose proof (digits2_pos_bounds p) as Bp.
  set (d := Zpos (digits2_pos p)) in *.
  assert (Hd : 1 <= d) by (unfold d; lia).
  destruct (Z.eq_dec (Zpos p) (2 ^ 24)) as [Htop | Htop].
  - exists (8388608%positive), 1. unfold holds. rewrite Htop.
    repeat split; try lia; reflexivity.
  - assert (Hd24 : d <= 24).
    { destruct (Z_le_gt_dec d 24) as [H | H]; [exact H | exfalso].
      assert (2 ^ 24 <= 2 ^ (d - 1)) by (apply Z.pow_le_mono_r; lia).
      lia. }
    assert (Hpos : 0 < Zpos p * 2 ^ (24 - d))
      by (apply Z.mul_pos_pos; [lia | apply Z.pow_pos_nonneg; lia]).
    exists (Z.to_pos (Zpos p * 2 ^ (24 - d))), (d - 24).
    unfold holds. rewrite Z2Pos.id by exact Hpos.
    split; [ | split; [lia | ]].
    + apply digits2_pos_unique. rewrite Z2Pos.id by exact Hpos.
      change (24 - 1) with 23.
      assert (H23 : 2 ^ 23 = 2 ^ (d - 1) * 2 ^ (24 - d))
        by (rewrite <- Z.pow_add_r by lia; f_equal; lia).
      assert (H24 : 2 ^ 24 = 2 ^ d * 2 ^ (24 - d))
        by (rewrite <- Z.pow_add_r by lia; f_equal; lia).
      rewrite H23, H24.
      assert (0 < 2 ^ (24 - d)) by (apply Z.pow_pos_nonneg; lia).
      nia.
    + replace (d - 24 + 23) with (d - 1) by lia.
      rewrite <- Z.mul_assoc, <- Z.pow_add_r by lia.
      do 2 f_equal. lia.
Qed.

Lemma holds_round (s : bool) (P : Z) (q : positive) (e : Z) (x : positive)
    (k : Z) :
  holds P q e -> 0 <= k <= 23 -> Zpos x = P * 2 ^ k ->
  binary_round binary32_prec binary32_emax s x (- k) = S754_finite s q e.
Proof.
  intros (Hd & He & Hval) Hk Hx.
  assert (Hk23 : 2 ^ 23 = 2 ^ k * 2 ^ (23 - k))
    by (rewrite <- Z.pow_add_r by lia; f_equal; lia).
  assert (Hkpos : 0 < 2 ^ (23 - k)) by (apply Z.pow_pos_nonneg; lia).
  apply binary_round_exact; [exact Hd | lia | | ].
  - intros Hle.
    assert (He23 : 2 ^ (23 - k) = 2 ^ (e + 23) * 2 ^ (- k - e))
      by (rewrite <- Z.pow_add_r by lia; f_equal; lia).
    assert (0 < 2 ^ (e + 23)) by (apply Z.pow_pos_nonneg; lia).
    rewrite Hx.
    apply (Z.mul_cancel_r _ _ (2 ^ (e + 23))); [lia | ].
    rewrite Hval, Hk23, He23. ring.
  - intros Hge.
    assert (He23 : 2 ^ (e + 23) = 2 ^ (e - - k) * 2 ^ (23 - k))
      by (rewrite <- Z.pow_add_r by lia; f_equal; lia).
    rewrite Hx.
    apply (Z.mul_cancel_r _ _ (2 ^ (23 - k))); [lia | ].
    transitivity (P * 2 ^ 23); [rewrite Hk23; ring | ].
    rewrite <- Hval, He23. ring.
Qed.

Lemma binary32_of_pos (P : Z) (q : positive) (e : Z) :
  holds P q e -> binary32_of_int P = S754_finite false q e.
Proof.
  intros H. pose proof H as (Hd & He & Hval).
  assert (0 < P).
  { assert (0 < 2 ^ (e + 23)) by (apply Z.pow_pos_nonneg; lia).
    assert (0 < 2 ^ 23) by reflexivity. nia. }
  destruct P as [ | p | p]; try lia.
  unfold binary32_of_int, binary_normalize.
  apply (holds_round false (Zpos p) q e p 0 H); [lia | lia].
Qed.

Lemma binary32_of_neg (P : Z) (q : positive) (e : Z) :
  holds P q e -> binary32_of_int (- P) = S754_finite true q e.
Proof.
  intros H. pose proof H as (Hd & He & Hval).
  assert (0 < P).
  { assert (0 < 2 ^ (e + 23)) by (apply Z.pow_pos_nonneg; lia).
    assert (0 < 2 ^ 23) by reflexivity. nia. }
  destruct P as [ | p | p]; try lia.
  unfold binary32_of_int, binary_normalize. cbn [Z.opp].
  apply (holds_round true (Zpos p) q e p 0 H); [lia | lia].
Qed.

(** Rounding an integer given with 23 fraction bits, all zero. *)
Lemma normalize_scaled (z : Z) :
  Z.abs z <= 2 ^ 24 ->
  binary_normalize binary32_prec binary32_emax (z * 2 ^ 23) (-23) false
  = binary32_of_int z.
Proof.
  intros Hz.
  destruct z as [ | p | p].
  - reflexivity.
  - destruct (holds_exists (Zpos p) ltac:(lia)) as (q & e & H).
    rewrite (binary32_of_pos _ _ _ H).
    change (2 ^ 23) with 8388608. cbn [Z.mul binary_normalize].
    apply (holds_round false (Zpos p) q e _ 23 H); [lia | ].
    rewrite Pos2Z.inj_mul. reflexivity.
  - destruct (holds_exists (Zpos p) ltac:(lia)) as (q & e & H).
    change (Zneg p) with (- Zpos p) at 2. rewrite (binary32_of_neg _ _ _ H).
    change (2 ^ 23) with 8388608. cbn [Z.mul binary_normalize].
    apply (holds_round true (Zpos p) q e _ 23 H); [lia | ].
    rewrite Pos2Z.inj_mul. reflexivity.
Qed.

Lemma shl_align_value (m : positive) (ex ez : Z) :
  ez <= ex -> Zpos (fst (shl_align m ex ez)) = Zpos m * 2 ^ (ex - ez).
Proof.
  intros Hle. unfold shl_align.
  destruct (ez - ex) as [ | j | j] eqn:E; cbn [fst].
  - replace (ex - ez) with 0 by lia. lia.
  - lia.
  - rewrite iter_xO_value. do 2 f_equal. lia.
Qed.

(** The float of an integer, aligned on exponent -23, is that integer with
    23 fraction bits. *)
Lemma binary32_aligned (z : Z) :
  z <> 0 -> Z.abs z <= 2 ^ 24 ->
  exists s q e,
    binary32_of_int z = S754_finite s q e /\ -23 <= e
    /\ cond_Zopp s (Zpos (fst (shl_align q e (-23)))) = z * 2 ^ 23.
Proof.
  intros Hnz Hz.
  destruct (holds_exists (Z.abs z) ltac:(lia)) as (q & e & H).
  pose proof H as (Hd & He & Hval).
  destruct (Z_lt_le_dec z 0) as [Hneg | Hpos].
  - exists true, q, e.
    replace z with (- Z.abs z) at 1 by lia.
    split; [now apply binary32_of_neg | ]. split; [lia | ].
    rewrite shl_align_value by lia. cbn [cond_Zopp].
    replace (e - -23) with (e + 23) by lia. rewrite Hval. lia.
  - exists false, q, e.
    replace z with (Z.abs z) at 1 by lia.
    split; [now apply binary32_of_pos | ]. split; [lia | ].
    rewrite shl_align_value by lia. cbn [cond_Zopp].
    replace (e - -23) with (e + 23) by lia. rewrite Hval. lia.
Qed.

Lemma binary32_one : binary32_of_int 1 = S754_finite false 8388608 (-23).
Proof. reflexivity. Qed.

Lemma binary32_add_one (z : Z) :
  Z.abs z <= 2 ^ 24 -> Z.abs (z + 1) <= 2 ^ 24 ->
  binary32_add (binary32_of_int z) (binary32_of_int 1) = binary32_of_int (z + 1).
Proof.
  intros Hz Hz1.
  destruct (Z.eq_dec z 0) as [-> | Hnz]; [reflexivity | ].
  destruct (binary32_aligned z Hnz Hz) as (s & q & e & Hf & He & Hal).
  unfold binary32_add. rewrite Hf, binary32_one. cbn [SFadd].
  replace (Z.min e (-23)) with (-23) by lia.
  rewrite Hal.
  replace (cond_Zopp false (Z.pos (fst (shl_align 8388608 (-23) (-23)))))
    with (1 * 2 ^ 23) by reflexivity.
  rewrite <- Z.mul_add_distr_r.
  now apply normalize_scaled.
Qed.

Lemma binary32_sub_one (z : Z) :
  Z.abs z <= 2 ^ 24 -> Z.abs (z - 1) <= 2 ^ 24 ->
  binary32_sub (binary32_of_int z) (binary32_of_int 1) = binary32_of_int (z - 1).
Proof.
  intros Hz Hz1.
  destruct (Z.eq_dec z 0) as [-> | Hnz]; [reflexivity | ].
  destruct (binary32_aligned z Hnz Hz) as (s & q & e & Hf & He & Hal).
  unfold binary32_sub. rewrite Hf, binary32_one. cbn [SFsub].
  replace (Z.min e (-23)) with (-23) by lia.
  rewrite Hal.
  replace (cond_Zopp false (Z.pos (fst (shl_align 8388608 (-23) (-23)))))
    with (1 * 2 ^ 23) by reflexivity.
  rewrite <- Z.mul_sub_distr_r.
  now apply normalize_scaled.
Qed.

Lemma holds_compare (A B : Z) (qa qb : positive) (ea eb : Z) :
  holds A qa ea -> holds B qb eb ->
  match ea ?= eb with
  | Lt => Lt
  | Gt => Gt
  | Eq => Pos.compare_cont Eq qa qb
  end = (A ?= B).
Proof.
  intros (Hda & Hea & Hva) (Hdb & Heb & Hvb).
  pose proof (digits2_pos_bounds qa) as Ba. rewrite Hda in Ba.
  pose proof (digits2_pos_bounds qb) as Bb. rewrite Hdb in Bb.
  change (24 - 1) with 23 in Ba, Bb.
  assert (P23 : 0 < 2 ^ 23) by reflexivity.
  assert (P24 : 2 ^ 24 = 2 * 2 ^ 23) by reflexivity.
  assert (Sa : 0 < 2 ^ (ea + 23)) by (apply Z.pow_pos_nonneg; lia).
  assert (Sb : 0 < 2 ^ (eb + 23)) by (apply Z.pow_pos_nonneg; lia).
  symmetry.
  destruct (Z.compare_spec ea eb) as [Heq | Hlt | Hgt].
  - subst eb.
    change (Pos.compare_cont Eq qa qb) with (qa ?= qb)%positive.
    rewrite Pos2Z.inj_compare.
    destruct (Z.compare_spec (Zpos qa) (Zpos qb)) as [H | H | H].
    + apply Z.compare_eq_iff. nia.
    + apply Z.compare_lt_iff. nia.
    + apply Z.compare_gt_iff. nia.
  - apply Z.compare_lt_iff.
    assert (2 * 2 ^ (ea + 23) <= 2 ^ (eb + 23)).
    { rewrite <- Z.pow_succ_r by lia. apply Z.pow_le_mono_r; lia. }
    nia.
  - apply Z.compare_gt_iff.
    assert (2 * 2 ^ (eb + 23) <= 2 ^ (ea + 23)).
    { rewrite <- Z.pow_succ_r by lia. apply Z.pow_le_mono_r; lia. }
    nia.
Qed.

Lemma binary32_cases (z : Z) :
  Z.abs z <= 2 ^ 24 ->
  (z = 0 /\ binary32_of_int z = S754_zero false)
  \/ (exists q e, 0 < z /\ holds z q e /\ binary32_of_int z = S754_finite false q e)
  \/ (exists q e, z < 0 /\ holds (- z) q e /\ binary32_of_int z = S754_finite true q e).
Proof.
  intros Hz.
  destruct (Z.lt_trichotomy z 0) as [H | [H | H]].
  - right. right.
    destruct (holds_exists (- z) ltac:(lia)) as (q & e & Hh).
    exists q, e. split; [exact H | ]. split; [exact Hh | ].
    rewrite <- (Z.opp_involutive z) at 1. now apply binary32_of_neg.
  - left. subst z. split; reflexivity.
  - right. left.
    destruct (holds_exists z ltac:(lia)) as (q & e & Hh).
    exists q, e. split; [exact H | ]. split; [exact Hh | ].
    now apply binary32_of_pos.
Qed.

Lemma binary32_compare (a b : Z) :
  Z.abs a <= 2 ^ 24 -> Z.abs b <= 2 ^ 24 ->
  SFcompare (binary32_of_int a) (binary32_of_int b) = Some (a ?= b).
Proof.
  intros Ha Hb.
  destruct (binary32_cases a Ha)
    as [[Hza Hfa] | [(qa & ea & Hsa & Hha & Hfa) | (qa & ea & Hsa & Hha & Hfa)]];
  destruct (binary32_cases b Hb)
    as [[Hzb Hfb] | [(qb & eb & Hsb & Hhb & Hfb) | (qb & eb & Hsb & Hhb & Hfb)]];
  rewrite Hfa, Hfb; cbn [SFcompare]; f_equal; symmetry.
  - subst. reflexivity.
  - apply Z.compare_lt_iff. lia.
  - apply Z.compare_gt_iff. lia.
  - apply Z.compare_gt_iff. lia.
  - symmetry. apply (holds_compare a b qa qb ea eb Hha Hhb).
  - apply Z.compare_gt_iff. lia.
  - apply Z.compare_lt_iff. lia.
  - apply Z.compare_lt_iff. lia.
  - pose proof (holds_compare (- a) (- b) qa qb ea eb Hha Hhb) as Hc.
    rewrite Z.compare_opp in Hc.
    rewrite (Z.compare_antisym b a), <- Hc.
    destruct (ea ?= eb); reflexivity.
Qed.

Lemma binary32_eqb (a b : Z) :
  Z.abs a <= 2 ^ 24 -> Z.abs b <= 2 ^ 24 ->
  SFeqb (binary32_of_int a) (binary32_of_int b) = (a =? b).
Proof.
  intros Ha Hb. unfold SFeqb. rewrite binary32_compare by assumption.
  destruct (Z.compare_spec a b) as [H | H | H]; symmetry.
  - now apply Z.eqb_eq.
  - apply Z.eqb_neq. lia.
  - apply Z.eqb_neq. lia.
Qed.

Lemma binary32_ltb (a b : Z) :
  Z.abs a <= 2 ^ 24 -> Z.abs b <= 2 ^ 24 ->
  SFltb (binary32_of_int a) (binary32_of_int b) = (a <? b).
Proof.
  intros Ha Hb. unfold SFltb, Z.ltb. now rewrite binary32_compare.
Qed.

Lemma binary32_trunc (z : Z) :
  Z.abs z <= 2 ^ 24 -> SFtrunc (binary32_of_int z) = z.
Proof.
  intros Hz.
  assert (Hsh : forall P q e, holds P q e -> Z.shiftl (Zpos q) e = P).
  { intros P q e (Hd & He & Hval).
    assert (P23 : 0 < 2 ^ 23) by reflexivity.
    destruct (Z_le_gt_dec 0 e) as [Hpos | Hneg].
    - rewrite Z.shiftl_mul_pow2 by lia.
      rewrite Z.pow_add_r, Z.mul_assoc in Hval by lia. nia.
    - rewrite <- (Z.opp_involutive e), Z.shiftl_opp_r,
        Z.shiftr_div_pow2 by lia.
      assert (Hpow : 0 < 2 ^ (- e)) by (apply Z.pow_pos_nonneg; lia).
      assert (H23 : 2 ^ 23 = 2 ^ (e + 23) * 2 ^ (- e))
        by (rewrite <- Z.pow_add_r by lia; f_equal; lia).
      assert (0 < 2 ^ (e + 23)) by (apply Z.pow_pos_nonneg; lia).
      assert (Hq : Zpos q = P * 2 ^ (- e)).
      { apply (Z.mul_cancel_r _ _ (2 ^ (e + 23))); [lia | ].
        rewrite Hval, H23. ring. }
      rewrite Hq. apply Z.div_mul. lia. }
  destruct (binary32_cases z Hz)
    as [[Hz0 Hf] | [(q & e & Hs & Hh & Hf) | (q & e & Hs & Hh & Hf)]];
    rewrite Hf; cbn [SFtrunc].
  - now subst.
  - cbn [cond_Zopp]. now apply Hsh.
  - cbn [cond_Zopp]. rewrite (Hsh _ _ _ Hh). lia.
Qed.

(** Above [2^24] binary32 no longer holds every integer: [2^24 + 1] rounds
    back to [2^24], in the integer reading as in the IEEE operations. *)
Lemma binary32_stalls_at_2p24 :
  float_of_int (2 ^ 24 + 1) = 2 ^ 24
  /\ binary32_add (binary32_of_int (2 ^ 24)) (binary32_of_int 1)
     = binary32_of_int (2 ^ 24)
  /\ float_of_int (- 2 ^ 24 - 1) = - 2 ^ 24
  /\ binary32_sub (binary32_of_int (- 2 ^ 24)) (binary32_of_int 1)
     = binary32_of_int (- 2 ^ 24).
Proof. vm_compute. repeat split; reflexivity. Qed.

(** *** Rounding of the integers binary32 does not hold *)

Lemma shr_1_spec (m : Z) (r s : bool) :
  0 <= m ->
  shr_1 {| shr_m := m; shr_r := r; shr_s := s |}
  = {| shr_m := m / 2; shr_r := Z.odd m; shr_s := r || s |}.
Proof.
  intros Hm. destruct m as [ | p | p]; [reflexivity | | lia].
  destruct p as [p | p | ]; cbn [shr_1].
  - f_equal. rewrite Pos2Z.inj_xI.
    rewrite Z.add_comm, Z.mul_comm, Z.div_add by lia. reflexivity.
  - f_equal. rewrite Pos2Z.inj_xO, Z.mul_comm, Z.div_mul by lia. reflexivity.
  - reflexivity.
Qed.

(** Shifting out [n] bits leaves the quotient, the last bit shifted out and
    whether any bit before it was set. *)
Lemma iter_shr_1_spec (m : Z) (n : positive) :
  0 <= m ->
  iter_pos shr_1 n {| shr_m := m; shr_r := false; shr_s := false |}
  = {| shr_m := m / 2 ^ Zpos n;
       shr_r := Z.testbit m (Zpos n - 1);
       shr_s := negb (m mod 2 ^ (Zpos n - 1) =? 0) |}.
Proof.
  intros Hm. rewrite iter_pos_iter.
  induction n as [ | n IH] using Pos.peano_ind.
  - cbn [Pos.iter]. rewrite shr_1_spec by exact Hm.
    change (Z.pos 1 - 1) with 0. rewrite Z.pow_0_r, Z.mod_1_r.
    rewrite Z.bit0_odd. reflexivity.
  - rewrite Pos.iter_succ, IH.
    assert (Hq : 0 <= m / 2 ^ Zpos n)
      by (apply Z.div_pos; [exact Hm | apply Z.pow_pos_nonneg; lia]).
    rewrite shr_1_spec by exact Hq.
    rewrite Pos2Z.inj_succ.
    replace (Z.succ (Zpos n) - 1) with (Zpos n) by lia.
    f_equal.
    + rewrite Z.pow_succ_r by lia.
      rewrite Z.mul_comm, <- Z.div_div by (try apply Z.pow_pos_nonneg; lia).
      reflexivity.
    + rewrite <- Z.shiftr_div_pow2 by lia.
      rewrite <- Z.bit0_odd, Z.shiftr_spec by lia. reflexivity.
    + assert (Hpow : 0 < 2 ^ (Zpos n - 1)) by (apply Z.pow_pos_nonneg; lia).
      assert (Hsplit : m mod 2 ^ Zpos n
                       = m mod 2 ^ (Zpos n - 1)
                         + 2 ^ (Zpos n - 1) * ((m / 2 ^ (Zpos n - 1)) mod 2)).
      { replace (2 ^ Zpos n) with (2 ^ (Zpos n - 1) * 2)
          by (rewrite Z.mul_comm, <- Z.pow_succ_r by lia; f_equal; lia).
        apply Z.rem_mul_r; lia. }
      assert (Hbit : (m / 2 ^ (Zpos n - 1)) mod 2
                     = if Z.testbit m (Zpos n - 1) then 1 else 0).
      { rewrite <- Z.testbit_spec' by lia.
        destruct (Z.testbit m (Zpos n - 1)); reflexivity. }
      pose proof (Z.mod_pos_bound m (2 ^ (Zpos n - 1)) Hpow) as Hlow.
      rewrite Hsplit, Hbit.
      destruct (Z.testbit m (Zpos n - 1));
        destruct (m mod 2 ^ (Zpos n - 1) =? 0) eqn:E0; cbn [orb negb].
      * symmetry. apply negb_true_iff, Z.eqb_neq. apply Z.eqb_eq in E0. lia.
      * symmetry. apply negb_true_iff, Z.eqb_neq. lia.
      * symmetry. apply negb_false_iff, Z.eqb_eq. apply Z.eqb_eq in E0. lia.
      * symmetry. apply negb_true_iff, Z.eqb_neq. apply Z.eqb_neq in E0. lia.
Qed.

Lemma round_nearest_even_spec (m : Z) (n : positive) :
  0 <= m ->
  round_nearest_even (m / 2 ^ Zpos n)
    (loc_of_shr_record
       {| shr_m := m / 2 ^ Zpos n;
          shr_r := Z.testbit m (Zpos n - 1);
          shr_s := negb (m mod 2 ^ (Zpos n - 1) =? 0) |})
  = round_quotient m (2 ^ Zpos n).
Proof.
  intros Hm. unfold round_quotient.
  assert (Hpow : 0 < 2 ^ (Zpos n - 1)) by (apply Z.pow_pos_nonneg; lia).
  assert (Hu : 2 ^ Zpos n = 2 * 2 ^ (Zpos n - 1))
    by (rewrite <- Z.pow_succ_r by lia; f_equal; lia).
  assert (Hsplit : m mod 2 ^ Zpos n
                   = m mod 2 ^ (Zpos n - 1)
                     + 2 ^ (Zpos n - 1) * ((m / 2 ^ (Zpos n - 1)) mod 2)).
  { rewrite Hu, (Z.mul_comm 2). apply Z.rem_mul_r; lia. }
  rewrite <- Z.testbit_spec' in Hsplit by lia.
  pose proof (Z.mod_pos_bound m (2 ^ (Zpos n - 1)) Hpow) as Hlow.
  rewrite Hsplit.
  destruct (Z.testbit m (Zpos n - 1));
    destruct (m mod 2 ^ (Zpos n - 1) =? 0) eqn:E0;
    cbn [negb loc_of_shr_record round_nearest_even Z.b2z].
  - apply Z.eqb_eq in E0.
    assert ((2 * (m mod 2 ^ (Zpos n - 1) + 2 ^ (Zpos n - 1) * 1)
             ?= 2 ^ Zpos n) = Eq) as -> by (apply Z.compare_eq_iff; lia).
    reflexivity.
  - apply Z.eqb_neq in E0.
    assert ((2 * (m mod 2 ^ (Zpos n - 1) + 2 ^ (Zpos n - 1) * 1)
             ?= 2 ^ Zpos n) = Gt) as -> by (apply Z.compare_gt_iff; lia).
    reflexivity.
  - apply Z.eqb_eq in E0.
    assert ((2 * (m mod 2 ^ (Zpos n - 1) + 2 ^ (Zpos n - 1) * 0)
             ?= 2 ^ Zpos n) = Lt) as -> by (apply Z.compare_lt_iff; lia).
    reflexivity.
  - apply Z.eqb_neq in E0.
    assert ((2 * (m mod 2 ^ (Zpos n - 1) + 2 ^ (Zpos n - 1) * 0)
             ?= 2 ^ Zpos n) = Lt) as -> by (apply Z.compare_lt_iff; lia).
    reflexivity.
Qed.

Lemma round_quotient_bounds (m u : Z) :
  0 < u -> m / u <= round_quotient m u <= m / u + 1.
Proof.
  intros Hu. unfold round_quotient.
  destruct (2 * (m mod u) ?= u); [destruct (Z.even (m / u)) | | ]; lia.
Qed.

(** An integer of more than 24 digits: its float is the mantissa rounded to
    24 digits, at the exponent of the digits dropped. *)
Lemma binary_round_inexact (s : bool) (p n : positive) :
  Zpos (digits2_pos p) = 24 + Zpos n -> Zpos n <= 103 ->
  SFtrunc (binary_round binary32_prec binary32_emax s p 0)
  = cond_Zopp s (round_quotient (Zpos p) (2 ^ Zpos n) * 2 ^ Zpos n).
Proof.
  intros Hd Hn.
  pose proof (digits2_pos_bounds p) as Bp. rewrite Hd in Bp.
  assert (Hu : 0 < 2 ^ Zpos n) by (apply Z.pow_pos_nonneg; lia).
  assert (H23 : 2 ^ (24 + Zpos n - 1) = 2 ^ 23 * 2 ^ Zpos n)
    by (rewrite <- Z.pow_add_r by lia; f_equal; lia).
  assert (H24 : 2 ^ (24 + Zpos n) = 2 ^ 24 * 2 ^ Zpos n)
    by (rewrite <- Z.pow_add_r by lia; f_equal; lia).
  rewrite H23, H24 in Bp.
  assert (Hq : 2 ^ 23 <= Zpos p / 2 ^ Zpos n < 2 ^ 24).
  { split.
    - apply Z.div_le_lower_bound; lia.
    - apply Z.div_lt_upper_bound; lia. }
  pose proof (round_quotient_bounds (Zpos p) (2 ^ Zpos n) Hu) as Hr.
  set (q' := round_quotient (Zpos p) (2 ^ Zpos n)) in *.
  unfold binary_round.
  replace (fexp binary32_prec binary32_emax (Zpos (digits2_pos p) + 0))
    with (Zpos n)
    by (unfold fexp, emin, binary32_prec, binary32_emax; lia).
  unfold shl_align. cbn [Z.sub Z.opp Z.add].
  unfold binary_round_aux, shr_fexp.
  cbn [Zdigits2 shr_record_of_loc].
  replace (fexp binary32_prec binary32_emax (Zpos (digits2_pos p) + 0) - 0)
    with (Zpos n)
    by (unfold fexp, emin, binary32_prec, binary32_emax; lia).
  cbn [shr]. rewrite iter_shr_1_spec by lia.
  cbn [shr_m]. rewrite round_nearest_even_spec by lia. fold q'.
  assert (P23 : 2 ^ 23 = 8388608) by reflexivity.
  assert (P24 : 2 ^ 24 = 16777216) by reflexivity.
  destruct q' as [ | x | x] eqn:Eq'; try lia.
  cbn [Zdigits2].
  destruct (Z.eq_dec (Zpos x) (2 ^ 24)) as [Htop | Hlow].
  - assert (x = 16777216%positive) as -> by lia.
    cbn [digits2_pos Pos.succ].
    replace (fexp binary32_prec binary32_emax (Zpos 25 + (0 + Zpos n))
             - (0 + Zpos n)) with 1
      by (unfold fexp, emin, binary32_prec, binary32_emax; lia).
    cbn [shr iter_pos shr_1 shr_m].
    assert ((0 + Zpos n + 1 <=? binary32_emax - binary32_prec) = true) as ->
      by (apply Z.leb_le; unfold binary32_emax, binary32_prec; lia).
    cbn [SFtrunc]. f_equal.
    rewrite Z.shiftl_mul_pow2 by lia.
    rewrite Z.pow_add_r, Z.pow_add_r by lia. lia.
  - assert (Hdx : Zpos (digits2_pos x) = 24)
      by (apply digits2_pos_unique; change (24 - 1) with 23; lia).
    rewrite Hdx.
    replace (fexp binary32_prec binary32_emax (24 + (0 + Zpos n))
             - (0 + Zpos n)) with 0
      by (unfold fexp, emin, binary32_prec, binary32_emax; lia).
    cbn [shr shr_m].
    assert ((0 + Zpos n <=? binary32_emax - binary32_prec) = true) as ->
      by (apply Z.leb_le; unfold binary32_emax, binary32_prec; lia).
    cbn [SFtrunc]. f_equal.
    rewrite Z.shiftl_mul_pow2 by lia. reflexivity.
Qed.

(** The integer reading of the conversion to [float] is the IEEE
    conversion, for every integer an [int], or a far larger type, holds. *)
Lemma float_of_int_binary32 (z : Z) :
  Z.abs z < 2 ^ 127 -> SFtrunc (binary32_of_int z) = float_of_int z.
Proof.
  intros Hz.
  destruct (Z_le_gt_dec (Z.abs z) (2 ^ 24)) as [Hsmall | Hbig].
  - rewrite float_of_int_exact by exact Hsmall. now apply binary32_trunc.
  - unfold float_of_int.
    assert ((Z.abs z <=? 2 ^ 24) = false) as -> by (apply Z.leb_gt; lia).
    cbv zeta.
    assert (Core : forall (s : bool) (p : positive),
               2 ^ 24 < Zpos p < 2 ^ 127 ->
               SFtrunc (binary_round binary32_prec binary32_emax s p 0)
               = cond_Zopp s
                   (round_quotient (Zpos p) (2 ^ (Z.log2 (Zpos p) - 23))
                    * 2 ^ (Z.log2 (Zpos p) - 23))).
    { intros s p Hp.
      pose proof (digits2_pos_bounds p) as Bp.
      assert (Hlog : Z.log2 (Zpos p) = Zpos (digits2_pos p) - 1)
        by (apply Z.log2_unique; [lia | ];
            replace (Z.succ (Zpos (digits2_pos p) - 1))
              with (Zpos (digits2_pos p)) by lia; exact Bp).
      assert (Hd : 25 <= Zpos (digits2_pos p) <= 127).
      { split.
        - destruct (Z_le_gt_dec 25 (Zpos (digits2_pos p))); [assumption | ].
          exfalso.
          assert (2 ^ Zpos (digits2_pos p) <= 2 ^ 24)
            by (apply Z.pow_le_mono_r; lia).
          lia.
        - destruct (Z_le_gt_dec (Zpos (digits2_pos p)) 127); [assumption | ].
          exfalso.
          assert (2 ^ 127 <= 2 ^ (Zpos (digits2_pos p) - 1))
            by (apply Z.pow_le_mono_r; lia).
          lia. }
      rewrite Hlog.
      destruct (Zpos (digits2_pos p) - 1 - 23) as [ | n | n] eqn:En; try lia.
      apply binary_round_inexact; lia. }
    destruct z as [ | p | p].
    + simpl in Hbig. lia.
    + unfold binary32_of_int, binary_normalize.
      rewrite Core by (simpl in Hbig, Hz; lia).
      cbn [Z.abs Z.sgn cond_Zopp]. lia.
    + unfold binary32_of_int, binary_normalize.
      rewrite Core by (simpl in Hbig, Hz; lia).
      cbn [Z.abs Z.sgn cond_Zopp]. lia.
Qed.

(** ** The smoothing loop *)

Lemma ramp_positions_length (current target : Z) :
  length (ramp_positions current target) = Z.to_nat (Z.abs (target - current)).
Proof. unfold ramp_positions. now rewrite length_map, length_seq. Qed.

Lemma ramp_positions_same (current : Z) : ramp_positions current current = [].
Proof. unfold ramp_positions. now rewrite Z.sub_diag. Qed.

Lemma ramp_positions_up (current target : Z) :
  current < target ->
  ramp_positions current target
  = (current + 1) :: ramp_positions (current + 1) target.
Proof.
  intros Hlt. unfold ramp_positions.
  replace (Z.to_nat (Z.abs (target - current)))
    with (S (Z.to_nat (Z.abs (target - (current + 1))))) by lia.
  cbn [seq map].
  assert ((current <? target) = true) as -> by (apply Z.ltb_lt; lia).
  f_equal.
  rewrite <- seq_shift, map_map.
  apply map_ext_in. intros k Hk. apply in_seq in Hk.
  destruct (current + 1 <? target) eqn:E; [lia | ].
  apply Z.ltb_ge in E. lia.
Qed.

Lemma ramp_positions_down (current target : Z) :
  target < current ->
  ramp_positions current target
  = (current - 1) :: ramp_positions (current - 1) target.
Proof.
  intros Hlt. unfold ramp_positions.
  replace (Z.to_nat (Z.abs (target - current)))
    with (S (Z.to_nat (Z.abs (target - (current - 1))))) by lia.
  cbn [seq map].
  assert ((current <? target) = false) as -> by (apply Z.ltb_ge; lia).
  f_equal.
  rewrite <- seq_shift, map_map.
  apply map_ext_in. intros k Hk. apply in_seq in Hk.
  destruct (current - 1 <? target) eqn:E; [ | lia].
  apply Z.ltb_lt in E. lia.
Qed.

Lemma ramp_positions_between (current target p : Z) :
  In p (ramp_positions current target) ->
  Z.min current target <= p <= Z.max current target.
Proof.
  unfold ramp_positions. intros Hin.
  apply in_map_iff in Hin. destruct Hin as [k [<- Hk]].
  apply in_seq in Hk.
  destruct (current <? target) eqn:E.
  - apply Z.ltb_lt in E. lia.
  - apply Z.ltb_ge in E. lia.
Qed.

Lemma ramp_in_range (current target : Z) :
  FORK_MIN <= current <= FORK_MAX -> FORK_MIN <= target <= FORK_MAX ->
  ramp current target
  = flat_map (fun p => [servo3_setAngle p; delay 20])
             (ramp_positions current target).
Proof.
  intros Hc Ht. unfold ramp.
  rewrite !flat_map_concat_map. f_equal.
  apply map_ext_in. intros p Hp.
  apply ramp_positions_between in Hp.
  unfold setServo. cbn [app]. do 2 f_equal. lia.
Qed.

Lemma servo_calls_app (tr tr' : list event) :
  servo_calls (tr ++ tr') = servo_calls tr ++ servo_calls tr'.
Proof. unfold servo_calls. apply flat_map_app. Qed.

Lemma pauses_app (tr tr' : list event) :
  pauses (tr ++ tr') = pauses tr ++ pauses tr'.
Proof. unfold pauses. apply flat_map_app. Qed.

Lemma servo_calls_ramp (current target : Z) :
  servo_calls (ramp current target)
  = map (fun p => Z.max FORK_MIN (Z.min p FORK_MAX))
        (ramp_positions current target).
Proof.
  unfold ramp. induction (ramp_positions current target) as [ | p ps IH].
  - reflexivity.
  - cbn [flat_map map]. rewrite servo_calls_app, IH. reflexivity.
Qed.

(** Within the integers binary32 holds exactly, the loop ends on the target
    after one step per unit of distance. *)
Lemma while_moving_ramp (fuel : nat) :
  forall current target : Z,
    Z.abs current <= 2 ^ 24 -> Z.abs target <= 2 ^ 24 ->
    (Z.to_nat (Z.abs (target - current)) <= fuel)%nat ->
    while_moving fuel current target = Some (ramp current target, target).
Proof.
  induction fuel as [ | fuel IH]; intros current target Hc Ht Hfuel.
  - assert (current = target) as -> by lia.
    simpl. rewrite Z.eqb_refl.
    unfold ramp. now rewrite ramp_positions_same.
  - cbn [while_moving].
    destruct (current =? target) eqn:Eeq.
    + apply Z.eqb_eq in Eeq. subst current.
      unfold ramp. now rewrite ramp_positions_same.
    + apply Z.eqb_neq in Eeq.
      destruct (current <? target) eqn:Elt.
      * apply Z.ltb_lt in Elt.
        rewrite float_of_int_exact by lia.
        rewrite IH by lia.
        unfold ramp. rewrite (ramp_positions_up current target Elt).
        cbn [flat_map]. now rewrite <- app_assoc.
      * apply Z.ltb_ge in Elt.
        assert ((target <? current) = true) as -> by (apply Z.ltb_lt; lia).
        rewrite float_of_int_exact by lia.
        rewrite IH by lia.
        unfold ramp.
        rewrite (ramp_positions_down current target ltac:(lia)).
        cbn [flat_map]. now rewrite <- app_assoc.
Qed.

(** Whenever the loop ends, it ends on the target. *)
Lemma while_moving_final (fuel : nat) :
  forall current target tr final,
    while_moving fuel current target = Some (tr, final) -> final = target.
Proof.
  induction fuel as [ | fuel IH]; intros current target tr final; cbn [while_moving].
  - destruct (current =? target) eqn:E; [ | discriminate].
    apply Z.eqb_eq in E. congruence.
  - destruct (current =? target) eqn:E.
    + apply Z.eqb_eq in E. congruence.
    + match goal with
      | |- context [while_moving fuel ?c target] =>
          destruct (while_moving fuel c target) as [[tr' f'] | ] eqn:Hw
      end; [ | discriminate].
      intros H. injection H as _ <-. eapply IH; eauto.
Qed.

(** Every angle the loop hands to the servo is within the fork range. *)
Lemma while_moving_bounded (fuel : nat) :
  forall current target tr final,
    while_moving fuel current target = Some (tr, final) ->
    Forall (fun a => FORK_MIN <= a <= FORK_MAX) (servo_calls tr).
Proof.
  induction fuel as [ | fuel IH]; intros current target tr final; cbn [while_moving].
  - destruct (current =? target); [ | discriminate].
    intros H. injection H as <- _. constructor.
  - destruct (current =? target).
    + intros H. injection H as <- _. constructor.
    + match goal with
      | |- context [while_moving fuel ?c target] =>
          destruct (while_moving fuel c target) as [[tr' f'] | ] eqn:Hw
      end; [ | discriminate].
      intros H. injection H as <- _.
      cbn. constructor.
      * unfold FORK_MIN, FORK_MAX. lia.
      * eapply IH; eauto.
Qed.

(** A pending target equal to the position costs no step, with any fuel. *)
Lemma while_moving_same (fuel : nat) (current : Z) :
  while_moving fuel current current = Some ([], current).
Proof. destruct fuel; simpl; now rewrite Z.eqb_refl. Qed.

(** Past [2^24] an increment by one is rounded away: a ramp that has to
    cross that point upwards never ends. *)
Lemma while_moving_stalls (target : Z) (fuel : nat) :
  2 ^ 24 < target ->
  forall current, current <= 2 ^ 24 -> - 2 ^ 24 <= current ->
  while_moving fuel current target = None.
Proof.
  intros Ht. induction fuel as [ | fuel IH]; intros current Hc Hc'; cbn [while_moving].
  - assert ((current =? target) = false) as -> by (apply Z.eqb_neq; lia).
    reflexivity.
  - assert ((current =? target) = false) as -> by (apply Z.eqb_neq; lia).
    assert ((current <? target) = true) as -> by (apply Z.ltb_lt; lia).
    destruct (Z.eq_dec current (2 ^ 24)) as [-> | Hne].
    + replace (float_of_int (2 ^ 24 + 1)) with (2 ^ 24)
        by (vm_compute; reflexivity).
      rewrite IH by lia. reflexivity.
    + rewrite float_of_int_exact by lia.
      rewrite IH by lia. reflexivity.
Qed.

Lemma binary32_to_int (z : Z) :
  Z.abs z <= 2 ^ 24 -> int_of_float (binary32_of_int z) = z.
Proof.
  intros Hz. pose proof (binary32_trunc z Hz) as Ht.
  assert (P24 : 2 ^ 24 = 16777216) by reflexivity.
  destruct (binary32_cases z Hz)
    as [[Hz0 Hf] | [(q & e & Hs & Hh & Hf) | (q & e & Hs & Hh & Hf)]];
    rewrite Hf in *; unfold int_of_float; rewrite Ht;
    unfold sat_int, INT_MIN, INT_MAX; lia.
Qed.

(** Every integer a float holds exactly is below [2^25]. *)
Lemma binary32_below_2p25 (z : Z) :
  Z.abs z <= 2 ^ 24 ->
  SFcompare (binary32_of_int z) (binary32_of_int (2 ^ 25)) = Some Lt.
Proof.
  intros Hz.
  replace (binary32_of_int (2 ^ 25)) with (S754_finite false 8388608 2)
    by reflexivity.
  destruct (binary32_cases z Hz)
    as [[Hz0 Hf] | [(q & e & Hs & Hh & Hf) | (q & e & Hs & Hh & Hf)]];
    rewrite Hf; cbn [SFcompare]; try reflexivity.
  destruct Hh as (_ & He & _).
  assert ((e ?= 2) = Lt) as -> by (apply Z.compare_lt_iff; lia).
  reflexivity.
Qed.

Lemma setServo_refines (z : Z) :
  Z.abs z <= 2 ^ 24 -> setServo_binary32 (binary32_of_int z) = setServo z.
Proof.
  intros Hz.
  assert (P24 : 2 ^ 24 = 16777216) by reflexivity.
  unfold setServo_binary32, setServo, FORK_MIN, FORK_MAX.
  rewrite (binary32_ltb 180 z) by lia.
  destruct (180 <? z) eqn:Ehi.
  - apply Z.ltb_lt in Ehi.
    rewrite (binary32_ltb 128 180) by lia. cbn [Z.ltb Z.compare Pos.compare
      Pos.compare_cont].
    rewrite binary32_to_int by lia. do 2 f_equal. lia.
  - apply Z.ltb_ge in Ehi.
    rewrite (binary32_ltb 128 z) by lia.
    destruct (128 <? z) eqn:Elo.
    + apply Z.ltb_lt in Elo. rewrite binary32_to_int by lia.
      do 2 f_equal. lia.
    + apply Z.ltb_ge in Elo. rewrite binary32_to_int by lia.
      do 2 f_equal. lia.
Qed.

(** Within the integers binary32 holds exactly, the loop on IEEE values and
    the loop on integers do the same thing, whatever the fuel. *)
Lemma while_moving_refines (fuel : nat) :
  forall current target : Z,
    Z.abs current <= 2 ^ 24 -> Z.abs target <= 2 ^ 24 ->
    while_moving_binary32 fuel (binary32_of_int current)
                          (binary32_of_int target)
    = in_binary32 (while_moving fuel current target).
Proof.
  induction fuel as [ | fuel IH]; intros current target Hc Ht;
    cbn [while_moving_binary32 while_moving];
    rewrite binary32_eqb by assumption.
  - destruct (current =? target); reflexivity.
  - destruct (current =? target) eqn:Eeq; [reflexivity | ].
    apply Z.eqb_neq in Eeq.
    rewrite (binary32_ltb current target), (binary32_ltb target current)
      by assumption.
    destruct (current <? target) eqn:Elt.
    + apply Z.ltb_lt in Elt.
      rewrite binary32_add_one, float_of_int_exact by lia.
      rewrite IH, setServo_refines by lia.
      destruct (while_moving fuel (current + 1) target) as [[tr final] | ];
        reflexivity.
    + apply Z.ltb_ge in Elt.
      assert ((target <? current) = true) as -> by (apply Z.ltb_lt; lia).
      rewrite binary32_sub_one, float_of_int_exact by lia.
      rewrite IH, setServo_refines by lia.
      destruct (while_moving fuel (current - 1) target) as [[tr final] | ];
        reflexivity.
Qed.

(** On IEEE values too, a ramp from an exactly held integer up to [2^25]
    never ends: the position climbs to [2^24] and stays there. *)
Lemma while_moving_binary32_stalls (fuel : nat) :
  forall current : Z,
    Z.abs current <= 2 ^ 24 ->
    while_moving_binary32 fuel (binary32_of_int current)
                          (binary32_of_int (2 ^ 25)) = None.
Proof.
  induction fuel as [ | fuel IH]; intros current Hc;
    cbn [while_moving_binary32];
    unfold SFeqb, SFltb; rewrite binary32_below_2p25 by exact Hc.
  - reflexivity.
  - destruct (Z.eq_dec current (2 ^ 24)) as [-> | Hne].
    + replace (binary32_add (binary32_of_int (2 ^ 24)) (binary32_of_int 1))
        with (binary32_of_int (2 ^ 24)) by reflexivity.
      rewrite IH by lia. reflexivity.
    + rewrite binary32_add_one by lia.
      rewrite IH by lia. reflexivity.
Qed.

(** ** The listeners *)

Lemma receive_silent (c : client) (g : globals) :
  silent c -> receive c g = (c, None, g).
Proof.
  destruct c as [buf | ]; unfold silent, receive; [ | reflexivity].
  intros Hlen.
  assert ((sizeof_double <=? length buf)%nat = false) as ->
    by (apply Nat.leb_gt; exact Hlen).
  reflexivity.
Qed.

Lemma receive_message (buf : list byte) (g : globals) :
  (sizeof_double <= length buf)%nat ->
  receive (Some buf) g
  = (Some (skipn sizeof_double buf),
     Some (doubleConvert_num (firstn sizeof_double buf)),
     with_doubleConvert (firstn sizeof_double buf) g).
Proof.
  intros Hlen. unfold receive.
  assert ((sizeof_double <=? length buf)%nat = true) as ->
    by (apply Nat.leb_le; exact Hlen).
  reflexivity.
Qed.

Lemma get_vel_silent (c : client) (rx now : Z) (g : globals) :
  silent c ->
  get_vel c rx now g
  = let g' := if 500 <? elapsed now (_get_vel_time g)
              then with_vel 0 g else g in
    (_get_vel_vel g', c, g').
Proof.
  intros Hs. unfold get_vel. rewrite (receive_silent c g Hs).
  rewrite wrap_ulong_minus. reflexivity.
Qed.

Lemma get_ang_vel_silent (c : client) (rx now : Z) (g : globals) :
  silent c ->
  get_ang_vel c rx now g
  = let g' := if 500 <? elapsed now (_get_ang_time g)
              then with_ang_vel 0 g else g in
    (_get_ang_vel g', c, g').
Proof.
  intros Hs. unfold get_ang_vel. rewrite (receive_silent c g Hs).
  rewrite wrap_ulong_minus. reflexivity.
Qed.

Lemma get_vel_message (buf : list byte) (rx now : Z) (g : globals) :
  (sizeof_double <= length buf)%nat ->
  get_vel (Some buf) rx now g
  = let g1 := with_vel_time (wrap_int rx)
                (with_vel
                   (int_of_float (doubleConvert_num (firstn sizeof_double buf)))
                   (with_doubleConvert (firstn sizeof_double buf) g)) in
    let g' := if 500 <? elapsed now rx then with_vel 0 g1 else g1 in
    (_get_vel_vel g', Some (skipn sizeof_double buf), g').
Proof.
  intros Hlen. unfold get_vel. rewrite (receive_message buf g Hlen).
  cbn [_get_vel_time with_vel_time with_vel with_doubleConvert].
  rewrite elapsed_since_stored. reflexivity.
Qed.

Lemma get_ang_vel_message (buf : list byte) (rx now : Z) (g : globals) :
  (sizeof_double <= length buf)%nat ->
  get_ang_vel (Some buf) rx now g
  = let g1 := with_ang_time (wrap_int rx)
                (with_ang_vel
                   (int_of_float (doubleConvert_num (firstn sizeof_double buf)))
                   (with_doubleConvert (firstn sizeof_double buf) g)) in
    let g' := if 500 <? elapsed now rx then with_ang_vel 0 g1 else g1 in
    (_get_ang_vel g', Some (skipn sizeof_double buf), g').
Proof.
  intros Hlen. unfold get_ang_vel. rewrite (receive_message buf g Hlen).
  cbn [_get_ang_time with_ang_time with_ang_vel with_doubleConvert].
  rewrite elapsed_since_stored. reflexivity.
Qed.

Lemma get_fork_silent (c : client) (g : globals) :
  silent c -> get_fork c g = (_get_fork_pos g, c, g).
Proof.
  intros Hs. unfold get_fork. now rewrite (receive_silent c g Hs).
Qed.

Lemma get_fork_message (buf : list byte) (g : globals) :
  (sizeof_double <= length buf)%nat ->
  get_fork (Some buf) g
  = let pos := int_of_float (doubleConvert_num (firstn sizeof_double buf)) in
    (pos, Some (skipn sizeof_double buf),
     with_fork_new true
       (with_fork_pos pos (with_doubleConvert (firstn sizeof_double buf) g))).
Proof.
  intros Hlen. unfold get_fork. now rewrite (receive_message buf g Hlen).
Qed.

Lemma get_vel_fork_state c rx now g :
  fork_state (snd (get_vel c rx now g)) = fork_state g.
Proof.
  unfold get_vel, receive.
  destruct c as [buf | ]; [destruct (sizeof_double <=? length buf)%nat | ];
    match goal with |- context [500 <? ?x] => destruct (500 <? x) end;
    reflexivity.
Qed.

Lemma get_ang_vel_fork_state c rx now g :
  fork_state (snd (get_ang_vel c rx now g)) = fork_state g.
Proof.
  unfold get_ang_vel, receive.
  destruct c as [buf | ]; [destruct (sizeof_double <=? length buf)%nat | ];
    match goal with |- context [500 <? ?x] => destruct (500 <? x) end;
    reflexivity.
Qed.

Lemma fork_state_eq (g : globals) (b : bool) (t c p : Z) :
  fork_state g = (b, t, c, p) ->
  fork_new g = b /\ servo_target g = t
  /\ current_servo g = c /\ _get_fork_pos g = p.
Proof. unfold fork_state. intros H. injection H. auto. Qed.

Lemma fork_message_silent c : silent c -> fork_message c = None.
Proof.
  destruct c as [buf | ]; unfold silent, fork_message; [ | reflexivity].
  intros Hlen.
  assert ((sizeof_double <=? length buf)%nat = false) as ->
    by (apply Nat.leb_gt; exact Hlen).
  reflexivity.
Qed.

Lemma fork_message_some buf :
  (sizeof_double <= length buf)%nat ->
  fork_message (Some buf)
  = Some (int_of_float (doubleConvert_num (firstn sizeof_double buf))).
Proof.
  intros Hlen. unfold fork_message.
  assert ((sizeof_double <=? length buf)%nat = true) as ->
    by (apply Nat.leb_le; exact Hlen).
  reflexivity.
Qed.

Lemma get_fork_spec (c : client) (g : globals) :
  let pos := match fork_message c with
             | Some p => p
             | None => _get_fork_pos g
             end in
  let pending := match fork_message c with
                 | Some _ => true
                 | None => fork_new g
                 end in
  fst (fst (get_fork c g)) = pos
  /\ fork_state (snd (get_fork c g))
     = (pending, servo_target g, current_servo g, pos).
Proof.
  unfold get_fork, receive, fork_message.
  destruct c as [buf | ];
    [destruct (sizeof_double <=? length buf)%nat | ];
    split; reflexivity.
Qed.

Lemma poll_vel_zero (polls : list (client * Z * Z)) :
  Forall (fun p => silent (fst (fst p))) polls ->
  forall g, _get_vel_vel g = 0 ->
  Forall (fun v => v = 0) (fst (poll_vel polls g)).
Proof.
  induction 1 as [ | [[c rx] now] polls Hc Hrest IH]; intros g Hz.
  - constructor.
  - cbn [poll_vel]. cbn [fst] in Hc.
    rewrite (get_vel_silent c rx now g Hc). cbv beta iota zeta.
    remember (if 500 <? elapsed now (_get_vel_time g)
              then with_vel 0 g else g) as g' eqn:Eg.
    assert (Hz' : _get_vel_vel g' = 0)
      by (subst g'; destruct (500 <? elapsed now (_get_vel_time g)); auto).
    specialize (IH g' Hz').
    destruct (poll_vel polls g') as [vs g'']. cbn [fst] in *.
    constructor; assumption.
Qed.

Lemma poll_ang_vel_zero (polls : list (client * Z * Z)) :
  Forall (fun p => silent (fst (fst p))) polls ->
  forall g, _get_ang_vel g = 0 ->
  Forall (fun v => v = 0) (fst (poll_ang_vel polls g)).
Proof.
  induction 1 as [ | [[c rx] now] polls Hc Hrest IH]; intros g Hz.
  - constructor.
  - cbn [poll_ang_vel]. cbn [fst] in Hc.
    rewrite (get_ang_vel_silent c rx now g Hc). cbv beta iota zeta.
    remember (if 500 <? elapsed now (_get_ang_time g)
              then with_ang_vel 0 g else g) as g' eqn:Eg.
    assert (Hz' : _get_ang_vel g' = 0)
      by (subst g'; destruct (500 <? elapsed now (_get_ang_time g)); auto).
    specialize (IH g' Hz').
    destruct (poll_ang_vel polls g') as [vs g'']. cbn [fst] in *.
    constructor; assumption.
Qed.

(** ** Passes of the loop *)

(** One pass of [loop], spelled out: the position and the pending flag after
    the three polls, then the ramp if one is pending, then the wheels. *)
Lemma loop_spec (fuel : nat) (i : inputs) (g : globals) :
  let pos := match fork_message (fork_client i) with
             | Some p => p
             | None => _get_fork_pos g
             end in
  let pending := match fork_message (fork_client i) with
                 | Some _ => true
                 | None => fork_new g
                 end in
  exists (l r : Z) (ga : globals),
    fork_state ga = (pending, float_of_int pos, current_servo g, pos)
    /\ loop fuel i g
       = if pending then
           match while_moving fuel (current_servo g) (float_of_int pos) with
           | Some (tr, final) =>
               Some (tr ++ driveMotors l r,
                     with_fork_new false (with_current_servo final ga))
           | None => None
           end
         else Some (driveMotors l r, ga).
Proof.
  intros pos pending. unfold loop.
  pose proof (get_vel_fork_state (vel_client i) (vel_rx_millis i)
                (vel_chk_millis i) g) as Hv.
  destruct (get_vel (vel_client i) (vel_rx_millis i) (vel_chk_millis i) g)
    as [[vel c1] g1].
  pose proof (get_ang_vel_fork_state (ang_client i) (ang_rx_millis i)
                (ang_chk_millis i) g1) as Ha.
  destruct (get_ang_vel (ang_client i) (ang_rx_millis i) (ang_chk_millis i) g1)
    as [[ang c2] g2].
  cbn [snd] in Hv, Ha. rewrite Hv in Ha. clear Hv.
  unfold fork_state in Ha. injection Ha as Hnew Htgt Hcur Hpos.
  destruct (get_fork_spec (fork_client i) g2) as [Hret Hst].
  destruct (get_fork (fork_client i) g2) as [[target c3] g3].
  cbn [fst snd] in Hret, Hst.
  rewrite Hnew, Htgt, Hcur, Hpos in Hst. rewrite Hpos in Hret.
  fold pos in Hret, Hst. fold pending in Hst.
  unfold fork_state in Hst. injection Hst as Hn3 Ht3 Hc3 Hp3.
  unfold vels_drive_wheels.
  match goal with
  | |- context [driveMotors ?a ?b] => exists a, b
  end.
  exists (with_servo_target (float_of_int target) g3).
  split.
  - unfold fork_state.
    cbn [fork_new servo_target current_servo _get_fork_pos with_servo_target].
    now rewrite Hn3, Hc3, Hp3, Hret.
  - cbn [fork_new servo_target current_servo with_servo_target].
    rewrite Hn3, Hc3, Hret.
    destruct pending; [ | reflexivity].
    destruct (while_moving fuel (current_servo g) (float_of_int pos))
      as [[tr final] | ]; reflexivity.
Qed.

(** What a finished pass leaves behind: nothing pending, and a received
    command in force. *)
Lemma loop_leaves (fuel : nat) (i : inputs) (g : globals)
    (tr : list event) (g' : globals) :
  loop fuel i g = Some (tr, g') ->
  (fork_new g = false \/ fork_message (fork_client i) <> None ->
   fork_new g' = false)
  /\ (forall pos, fork_message (fork_client i) = Some pos ->
        _get_fork_pos g' = pos
        /\ servo_target g' = float_of_int pos
        /\ current_servo g' = float_of_int pos).
Proof.
  intros Hloop.
  destruct (loop_spec fuel i g) as (l & r & ga & Hga & Hspec).
  rewrite Hloop in Hspec.
  apply fork_state_eq in Hga. destruct Hga as (Hn & Hts & Hcs & Hps).
  destruct (fork_message (fork_client i)) as [p | ].
  - match type of Hspec with
    | context [while_moving fuel ?c ?t] =>
        destruct (while_moving fuel c t) as [[tr' final] | ] eqn:Hw
    end; [ | discriminate].
    injection Hspec as _ ->.
    cbn [current_servo servo_target _get_fork_pos fork_new with_fork_new
         with_current_servo].
    apply while_moving_final in Hw. subst final.
    split; [reflexivity | ].
    intros pos [= <-]. auto.
  - split; [ | discriminate].
    intros [Hnew | Habs]; [ | congruence].
    rewrite Hnew in Hspec, Hn. injection Hspec as _ ->. exact Hn.
Qed.

Lemma run_idle (fuel : nat) (passes : list inputs) :
  Forall (fun i => silent (fork_client i)) passes ->
  forall g : globals,
    fork_new g = false ->
    exists (tr : list event) (g' : globals),
      run fuel passes g = Some (tr, g')
      /\ servo_calls tr = [] /\ pauses tr = []
      /\ fork_new g' = false
      /\ current_servo g' = current_servo g
      /\ _get_fork_pos g' = _get_fork_pos g
      /\ servo_target g'
         = match passes with
           | [] => servo_target g
           | _ :: _ => float_of_int (_get_fork_pos g)
           end.
Proof.
  induction 1 as [ | i passes Hi Hrest IH]; intros g Hnew.
  - exists [], g. repeat split; auto.
  - cbn [run].
    destruct (loop_spec fuel i g) as (l & r & ga & Hga & Hloop).
    rewrite (fork_message_silent _ Hi), Hnew in Hga, Hloop.
    apply fork_state_eq in Hga. destruct Hga as (Hn & Hts & Hcs & Hps).
    rewrite Hloop.
    destruct (IH ga Hn) as (tr & g' & Hrun & Hsc & Hpa & Hn' & Hc' & Hp' & Ht').
    rewrite Hrun.
    eexists. eexists. split; [reflexivity | ].
    rewrite servo_calls_app, pauses_app, Hsc, Hpa.
    repeat split; auto; try congruence.
    rewrite Ht'. destruct passes; congruence.
Qed.

(** ** Rounding in binary32 *)

(** *** A rounded mantissa is the quotient or its successor *)






(** *** Values as rationals *)

#[export] Instance close_to_wd : Proper (Qeq ==> Qeq ==> iff) close_to.
Proof.
  intros R R' HR T T' HT. unfold close_to. rewrite HR, HT. reflexivity.
Qed.

Section Rounding.

Local Open Scope Q_scope.

















(** *** Multiplication *)


(** *** Division *)



(** *** Addition and subtraction *)









(** *** Conversions *)




(** *** The error of the wheel computation *)









End Rounding.

(** ** The claims *)

(** C1. Smoother convergence and step count.  With the position and the
    received target both in [[128,180]], the ramp takes exactly
    [|target - current|] steps; the [k]-th step commands the position [k]
    units from the start on the side of the target and is followed by a
    20 ms pause; the pass ends with [current_servo = servo_target = target]
    and no update pending.  The loop on IEEE binary32 values does the same.
    In particular a message decoding to 150.0 at position 128 gives the 22
    servo commands 129..150, in this order. *)
Theorem smoother_converges :
  (forall (g : globals) (i : inputs) (buf : list byte) (fuel : nat),
      fork_client i = Some buf -> (sizeof_double <= length buf)%nat ->
      let current := current_servo g in
      let target :=
        int_of_float (doubleConvert_num (firstn sizeof_double buf)) in
      let positions := ramp_positions current target in
      let trace :=
        flat_map (fun p => [servo3_setAngle p; delay 20]) positions in
      FORK_MIN <= current <= FORK_MAX -> FORK_MIN <= target <= FORK_MAX ->
      (Z.to_nat (Z.abs (target - current)) <= fuel)%nat ->
      length positions = Z.to_nat (Z.abs (target - current))
      /\ (forall k, (k < length positions)%nat ->
            nth k positions 0
            = if current <? target then current + Z.of_nat (S k)
              else current - Z.of_nat (S k))
      /\ while_moving fuel current target = Some (trace, target)
      /\ while_moving_binary32 fuel (binary32_of_int current)
                               (binary32_of_int target)
         = Some (trace, binary32_of_int target)
      /\ exists (l r : Z) (g' : globals),
           loop fuel i g = Some (trace ++ driveMotors l r, g')
           /\ current_servo g' = target
           /\ servo_target g' = target
           /\ fork_new g' = false)
  /\ doubleConvert_num fork_150 = double_of_int 150
  /\ (forall (g : globals) (i : inputs) (rest : list byte),
        current_servo g = 128 -> fork_client i = Some (fork_150 ++ rest) ->
        exists (l r : Z) (g' : globals),
          loop 22 i g
          = Some (flat_map (fun p => [servo3_setAngle p; delay 20])
                    [129; 130; 131; 132; 133; 134; 135; 136; 137; 138; 139;
                     140; 141; 142; 143; 144; 145; 146; 147; 148; 149; 150]
                  ++ driveMotors l r, g')
          /\ current_servo g' = 150
          /\ servo_target g' = 150
          /\ fork_new g' = false).
Proof.
  match goal with |- ?A /\ _ => assert (General : A) end.
  { intros g i buf fuel Hi Hlen current target positions trace Hc Ht Hfuel.
    unfold FORK_MIN, FORK_MAX in Hc, Ht.
    assert (P24 : 2 ^ 24 = 16777216) by reflexivity.
    assert (Hw : while_moving fuel current target = Some (trace, target)).
    { rewrite while_moving_ramp by lia.
      now rewrite ramp_in_range by (unfold FORK_MIN, FORK_MAX; lia). }
    split; [apply ramp_positions_length | ].
    split.
    { intros k Hk. unfold positions in *.
      rewrite ramp_positions_length in Hk. unfold ramp_positions.
      set (f := fun k : nat => if current <? target
                               then current + Z.of_nat k
                               else current - Z.of_nat k).
      rewrite (nth_indep _ 0 (f O))
        by (now rewrite length_map, length_seq).
      rewrite map_nth, seq_nth by exact Hk. reflexivity. }
    split; [exact Hw | ].
    split; [rewrite while_moving_refines, Hw by lia; reflexivity | ].
    destruct (loop_spec fuel i g) as (l & r & ga & Hga & Hloop).
    rewrite Hi, (fork_message_some buf Hlen) in Hga, Hloop.
    fold target in Hga, Hloop.
    rewrite (float_of_int_exact target) in Hga, Hloop by lia.
    fold current in Hloop. rewrite Hw in Hloop.
    apply fork_state_eq in Hga. destruct Hga as (Hn & Hts & Hcs & Hps).
    exists l, r, (with_fork_new false (with_current_servo target ga)).
    repeat split; [exact Hloop | exact Hts]. }
  split; [exact General | ].
  split; [vm_compute; reflexivity | ].
  intros g i rest Hcur Hi.
  assert (Hlen : (sizeof_double <= length (fork_150 ++ rest))%nat)
    by (rewrite length_app; unfold fork_150, sizeof_double; simpl; lia).
  destruct (General g i (fork_150 ++ rest) 22%nat Hi Hlen)
    as (_ & _ & _ & _ & H).
  - rewrite Hcur. unfold FORK_MIN, FORK_MAX. lia.
  - cbn [firstn sizeof_double fork_150 app]. vm_compute. split; discriminate.
  - rewrite Hcur. cbn [firstn sizeof_double fork_150 app]. vm_compute. lia.
  - rewrite Hcur in H. cbn [firstn sizeof_double fork_150 app] in H.
    exact H.
Qed.

Lemma smoother_converges_witness :
  (FORK_MIN <= current_servo initial_globals <= FORK_MAX)
  /\ exists (l r : Z) (g' : globals),
       loop 22 (fork_only fork_150) initial_globals
       = Some (flat_map (fun p => [servo3_setAngle p; delay 20])
                 (Zrange 129 22) ++ driveMotors l r, g')
       /\ current_servo g' = 150
       /\ servo_target g' = 150
       /\ fork_new g' = false.
Proof.
  split; [vm_compute; split; discriminate | ].
  destruct smoother_converges as [General _].
  pose proof (General initial_globals (fork_only fork_150) fork_150 22%nat
                eq_refl) as H.
  cbv zeta in H.
  assert (E : int_of_float (doubleConvert_num (firstn sizeof_double fork_150))
              = 150) by (vm_compute; reflexivity).
  rewrite E in H.
  change (current_servo initial_globals) with 128 in H.
  destruct H as (_ & _ & _ & _ & H).
  - unfold sizeof_double, fork_150. simpl. lia.
  - unfold FORK_MIN, FORK_MAX. lia.
  - unfold FORK_MIN, FORK_MAX. lia.
  - simpl. lia.
  - exact H.
Defined.




(** C3. Liveness gate.  On a poll that finds no new message, each velocity
    listener returns its stored value when the time since the stored
    timestamp is at most 500 ms and 0 when it is more: at exactly 500 ms the
    stored value, at 501 ms zero.  The time is taken on the 32-bit
    millisecond clock, where it is the plain difference as long as the
    clock has not wrapped.  The test runs on every poll: after a poll that
    found the channel stale, every later poll without a message returns 0,
    whatever the clock reads, until a message arrives and its value is
    returned again. *)
Theorem liveness_gate_boundary (g : globals) (c : client) (rx now : Z) :
  silent c ->
  fst (fst (get_vel c rx now g))
  = (if elapsed now (_get_vel_time g) <=? 500 then _get_vel_vel g else 0)
  /\ fst (fst (get_ang_vel c rx now g))
     = (if elapsed now (_get_ang_time g) <=? 500 then _get_ang_vel g else 0)
  /\ fst (fst (get_vel c rx (_get_vel_time g + 500) g)) = _get_vel_vel g
  /\ fst (fst (get_vel c rx (_get_vel_time g + 501) g)) = 0
  /\ fst (fst (get_ang_vel c rx (_get_ang_time g + 500) g)) = _get_ang_vel g
  /\ fst (fst (get_ang_vel c rx (_get_ang_time g + 501) g)) = 0
  /\ (forall last t, 0 <= last <= t -> t < 2 ^ 32 ->
        elapsed t (wrap_int last) = t - last)
  /\ (forall polls,
        Forall (fun p => silent (fst (fst p))) polls ->
        (500 < elapsed now (_get_vel_time g) ->
         Forall (fun v => v = 0) (fst (poll_vel ((c, rx, now) :: polls) g)))
        /\ (500 < elapsed now (_get_ang_time g) ->
            Forall (fun v => v = 0)
                   (fst (poll_ang_vel ((c, rx, now) :: polls) g))))
  /\ (forall buf rx' now',
        (sizeof_double <= length buf)%nat -> elapsed now' rx' <= 500 ->
        let v := int_of_float (doubleConvert_num (firstn sizeof_double buf)) in
        fst (fst (get_vel (Some buf) rx' now' g)) = v
        /\ fst (fst (get_ang_vel (Some buf) rx' now' g)) = v).
Proof.
  intros Hc.
  assert (Gate : forall t x, (if 500 <? t then 0 else x)
                             = (if t <=? 500 then x else 0)).
  { intros t x. destruct (500 <? t) eqn:E1, (t <=? 500) eqn:E2; try reflexivity.
    - apply Z.ltb_lt in E1. apply Z.leb_le in E2. lia.
    - apply Z.ltb_ge in E1. apply Z.leb_gt in E2. lia. }
  assert (Vel : forall t, fst (fst (get_vel c rx t g))
                = (if elapsed t (_get_vel_time g) <=? 500
                   then _get_vel_vel g else 0)).
  { intros t. rewrite (get_vel_silent c rx t g Hc). cbv zeta. cbn [fst].
    rewrite <- Gate. now destruct (500 <? elapsed t (_get_vel_time g)). }
  assert (Ang : forall t, fst (fst (get_ang_vel c rx t g))
                = (if elapsed t (_get_ang_time g) <=? 500
                   then _get_ang_vel g else 0)).
  { intros t. rewrite (get_ang_vel_silent c rx t g Hc). cbv zeta. cbn [fst].
    rewrite <- Gate. now destruct (500 <? elapsed t (_get_ang_time g)). }
  split; [apply Vel | ]. split; [apply Ang | ].
  split; [rewrite Vel, elapsed_after by (cbn; lia); reflexivity | ].
  split; [rewrite Vel, elapsed_after by (cbn; lia); reflexivity | ].
  split; [rewrite Ang, elapsed_after by (cbn; lia); reflexivity | ].
  split; [rewrite Ang, elapsed_after by (cbn; lia); reflexivity | ].
  split; [intros last t; apply elapsed_no_wrap | ].
  split.
  - intros polls Hpolls. split; intros Hstale.
    + apply Z.ltb_lt in Hstale.
      cbn [poll_vel].
      rewrite (get_vel_silent c rx now g Hc). cbv beta iota zeta.
      rewrite Hstale.
      pose proof (poll_vel_zero polls Hpolls (with_vel 0 g) eq_refl) as H0.
      destruct (poll_vel polls (with_vel 0 g)) as [vs g''].
      cbn [fst] in *. constructor; [reflexivity | exact H0].
    + apply Z.ltb_lt in Hstale.
      cbn [poll_ang_vel].
      rewrite (get_ang_vel_silent c rx now g Hc). cbv beta iota zeta.
      rewrite Hstale.
      pose proof (poll_ang_vel_zero polls Hpolls (with_ang_vel 0 g) eq_refl)
        as H0.
      destruct (poll_ang_vel polls (with_ang_vel 0 g)) as [vs g''].
      cbn [fst] in *. constructor; [reflexivity | exact H0].
  - intros buf rx' now' Hlen Hfresh v.
    assert (Hb : (500 <? elapsed now' rx') = false) by (apply Z.ltb_ge; lia).
    rewrite (get_vel_message buf rx' now' g Hlen),
            (get_ang_vel_message buf rx' now' g Hlen).
    cbv zeta. rewrite Hb. split; reflexivity.
Qed.

Lemma liveness_gate_boundary_witness :
  let g := with_vel_time 1000 (with_vel 7 initial_globals) in
  silent None
  /\ fst (fst (get_vel None 0 1500 g)) = 7
  /\ fst (fst (get_vel None 0 1501 g)) = 0
  /\ Forall (fun v => v = 0)
       (fst (poll_vel [(None, 0, 1501); (None, 0, 900000);
                       (Some [x00; x01], 0, 4294968000)] g)).
Proof.
  intros g. split; [exact I | ].
  destruct (liveness_gate_boundary g None 0 1501 I)
    as (_ & _ & H500 & H501 & _ & _ & _ & Hpolls & _).
  split; [exact H500 | ]. split; [exact H501 | ].
  destruct (Hpolls [(None, 0, 900000); (Some [x00; x01], 0, 4294968000)])
    as [Hvel _].
  - repeat constructor.
  - apply Hvel. vm_compute. reflexivity.
Defined.

(** C4, as stated, fails: a target of 200 is not clamped, and the ramp takes
    [current_servo] to 200, out of [[128,180]]. *)
Lemma actuator_state_leaves_range :
  doubleConvert_num fork_200 = double_of_int 200
  /\ exists (tr : list event) (g' : globals),
       loop 72 (fork_only fork_200) initial_globals = Some (tr, g')
       /\ servo_target g' = 200 /\ current_servo g' = 200
       /\ ~ (FORK_MIN <= servo_target g' <= FORK_MAX)
       /\ ~ (FORK_MIN <= current_servo g' <= FORK_MAX).
Proof.
  split; [vm_compute; reflexivity | ].
  eexists. eexists. split; [vm_compute; reflexivity | ].
  cbn [servo_target current_servo]. unfold FORK_MIN, FORK_MAX.
  repeat split; lia.
Qed.

(** C4, amended.  What stays within [[FORK_MIN, FORK_MAX]] is every angle
    handed to the servo: [setServo] limits each commanded value to the
    nearest bound (and so does its IEEE form), so the fork never moves past
    the bounds even for a target outside them.  [current_servo] and
    [servo_target] are not limited: the target is the received value as it
    is, and a pass whose ramp ends leaves [current_servo] equal to it. *)
Theorem servo_output_bounded (fuel : nat) (i : inputs) (g : globals)
    (tr : list event) (g' : globals) :
  loop fuel i g = Some (tr, g') ->
  Forall (fun a => FORK_MIN <= a <= FORK_MAX) (servo_calls tr)
  /\ (forall dec, exists a,
         setServo dec = [servo3_setAngle a]
         /\ FORK_MIN <= a <= FORK_MAX
         /\ (dec < FORK_MIN -> a = FORK_MIN)
         /\ (FORK_MAX < dec -> a = FORK_MAX)
         /\ (FORK_MIN <= dec <= FORK_MAX -> a = dec))
  /\ (forall dec, Z.abs dec <= 2 ^ 24 ->
        setServo_binary32 (binary32_of_int dec) = setServo dec)
  /\ (forall pos, fork_message (fork_client i) = Some pos ->
        _get_fork_pos g' = pos
        /\ servo_target g' = float_of_int pos
        /\ current_servo g' = float_of_int pos).
Proof.
  intros Hloop.
  destruct (loop_spec fuel i g) as (l & r & ga & Hga & Hspec).
  rewrite Hloop in Hspec.
  apply fork_state_eq in Hga. destruct Hga as (Hn & Hts & Hcs & Hps).
  split; [ | split; [ | split; [exact setServo_refines | ]]].
  - destruct (match fork_message (fork_client i) with
              | Some _ => true
              | None => fork_new g
              end).
    + match type of Hspec with
      | context [while_moving fuel ?c ?t] =>
          destruct (while_moving fuel c t) as [[tr' final] | ] eqn:Hw
      end; [ | discriminate].
      injection Hspec as -> _.
      unfold servo_calls. rewrite flat_map_app.
      cbn [driveMotors flat_map app]. rewrite app_nil_r.
      exact (while_moving_bounded _ _ _ _ _ Hw).
    + injection Hspec as -> _.
      cbn [servo_calls driveMotors flat_map app]. constructor.
  - intros dec. eexists. split; [reflexivity | ].
    unfold FORK_MIN, FORK_MAX. lia.
  - intros pos Hmsg. rewrite Hmsg in *.
    match type of Hspec with
    | context [while_moving fuel ?c ?t] =>
        destruct (while_moving fuel c t) as [[tr' final] | ] eqn:Hw
    end; [ | discriminate].
    injection Hspec as _ ->.
    cbn [current_servo servo_target _get_fork_pos with_fork_new
         with_current_servo].
    apply while_moving_final in Hw. subst final. auto.
Qed.

Lemma servo_output_bounded_witness :
  exists (tr : list event) (g' : globals),
    loop 72 (fork_only fork_200) initial_globals = Some (tr, g')
    /\ Forall (fun a => FORK_MIN <= a <= FORK_MAX) (servo_calls tr)
    /\ servo_target g' = 200 /\ current_servo g' = 200.
Proof.
  eexists. eexists. split; [vm_compute; reflexivity | ].
  match goal with
  | |- Forall _ (servo_calls ?tr) /\ servo_target ?g' = _ /\ _ =>
      pose proof (servo_output_bounded 72 (fork_only fork_200)
                    initial_globals tr g' ltac:(vm_compute; reflexivity)) as H
  end.
  destruct H as (Hb & _).
  split; [exact Hb | ]. split; reflexivity.
Defined.

(** C5, as stated, fails: what a listener stores and returns is the decoded
    double converted to [int].  A velocity of 0.5 is exposed as 0, a fork
    position of 150.5 as 150. *)
Lemma channel_value_is_truncated :
  (SF2Q (doubleConvert_num vel_half) == 1 # 2)%Q
  /\ fst (fst (get_vel (Some vel_half) 1000 1000 initial_globals)) = 0
  /\ ~ (inject_Z (fst (fst (get_vel (Some vel_half) 1000 1000
                              initial_globals)))
        == SF2Q (doubleConvert_num vel_half))%Q
  /\ (SF2Q (doubleConvert_num fork_150_5) == 301 # 2)%Q
  /\ fst (fst (get_fork (Some fork_150_5) initial_globals)) = 150
  /\ ~ (inject_Z (fst (fst (get_fork (Some fork_150_5) initial_globals)))
        == SF2Q (doubleConvert_num fork_150_5))%Q.
Proof.
  repeat split; try (vm_compute; congruence).
Qed.

(** C5, amended.  With at least eight buffered bytes a listener takes
    exactly eight, reads them as a little-endian double, and stores and
    returns that double converted to [int]: an integer of the [int] range,
    the double truncated toward zero.  The value exposed equals the decoded
    double only when that is such an integer.  With fewer than eight bytes,
    or no client, nothing is consumed and nothing is stored: [get_fork]
    returns the held position, a velocity listener its stored value or the
    gate's zero. *)
Theorem channel_reader_truncates (g : globals) (buf : list byte)
    (rx now : Z) :
  (sizeof_double <= length buf)%nat ->
  let num := doubleConvert_num (firstn sizeof_double buf) in
  snd (fst (get_vel (Some buf) rx now g)) = Some (skipn sizeof_double buf)
  /\ snd (fst (get_ang_vel (Some buf) rx now g))
     = Some (skipn sizeof_double buf)
  /\ snd (fst (get_fork (Some buf) g)) = Some (skipn sizeof_double buf)
  /\ length (skipn sizeof_double buf) = (length buf - 8)%nat
  /\ doubleConvert (snd (get_fork (Some buf) g)) = firstn sizeof_double buf
  /\ fst (fst (get_fork (Some buf) g)) = int_of_float num
  /\ _get_fork_pos (snd (get_fork (Some buf) g)) = int_of_float num
  /\ fork_new (snd (get_fork (Some buf) g)) = true
  /\ _get_vel_time (snd (get_vel (Some buf) rx now g)) = wrap_int rx
  /\ _get_ang_time (snd (get_ang_vel (Some buf) rx now g)) = wrap_int rx
  /\ (elapsed now rx <= 500 ->
      fst (fst (get_vel (Some buf) rx now g)) = int_of_float num
      /\ _get_vel_vel (snd (get_vel (Some buf) rx now g)) = int_of_float num
      /\ fst (fst (get_ang_vel (Some buf) rx now g)) = int_of_float num
      /\ _get_ang_vel (snd (get_ang_vel (Some buf) rx now g))
         = int_of_float num)
  /\ INT_MIN <= int_of_float num <= INT_MAX
  /\ (forall s m e,
        num = S754_finite s m e ->
        let a := Z.shiftl (Zpos m) e in
        a <= INT_MAX ->
        int_of_float num = (if s then - a else a)
        /\ (inject_Z a <= SFmagnitude m e)%Q
        /\ (SFmagnitude m e < inject_Z (a + 1))%Q)
  /\ (forall c, silent c ->
        snd (fst (get_vel c rx now g)) = c
        /\ snd (fst (get_ang_vel c rx now g)) = c
        /\ get_fork c g = (_get_fork_pos g, c, g)
        /\ doubleConvert (snd (get_vel c rx now g)) = doubleConvert g
        /\ doubleConvert (snd (get_ang_vel c rx now g)) = doubleConvert g
        /\ _get_vel_time (snd (get_vel c rx now g)) = _get_vel_time g
        /\ _get_ang_time (snd (get_ang_vel c rx now g)) = _get_ang_time g
        /\ (fst (fst (get_vel c rx now g)) = _get_vel_vel g
            \/ fst (fst (get_vel c rx now g)) = 0)
        /\ (fst (fst (get_ang_vel c rx now g)) = _get_ang_vel g
            \/ fst (fst (get_ang_vel c rx now g)) = 0)).
Proof.
  intros Hlen num.
  rewrite (get_vel_message buf rx now g Hlen),
          (get_ang_vel_message buf rx now g Hlen),
          (get_fork_message buf g Hlen).
  cbv zeta. fold num.
  split; [reflexivity | ]. split; [reflexivity | ]. split; [reflexivity | ].
  split; [rewrite length_skipn; reflexivity | ].
  split; [reflexivity | ]. split; [reflexivity | ].
  split; [reflexivity | ]. split; [reflexivity | ].
  split; [destruct (500 <? elapsed now rx); reflexivity | ].
  split; [destruct (500 <? elapsed now rx); reflexivity | ].
  split.
  { intros Hfresh.
    assert ((500 <? elapsed now rx) = false) as -> by (apply Z.ltb_ge; lia).
    repeat split; reflexivity. }
  split; [apply int_of_float_range | ].
  split.
  { intros s m e Hnum Ha. rewrite Hnum.
    destruct (SFtrunc_toward_zero s m e) as (Ht & Hpos & Hlo & Hhi).
    cbv zeta in Ht, Hpos, Hlo, Hhi.
    split; [ | split; assumption].
    unfold int_of_float. rewrite Ht.
    unfold sat_int, INT_MIN, INT_MAX in *. destruct s; lia. }
  intros c Hc.
  rewrite (get_vel_silent c rx now g Hc), (get_ang_vel_silent c rx now g Hc),
          (get_fork_silent c g Hc).
  cbv zeta. cbn [fst snd].
  destruct (500 <? elapsed now (_get_vel_time g)),
           (500 <? elapsed now (_get_ang_time g));
    repeat split; auto.
Qed.

Lemma channel_reader_truncates_witness :
  fst (fst (get_fork (Some fork_150_5) initial_globals)) = 150
  /\ snd (fst (get_fork (Some fork_150_5) initial_globals)) = Some []
  /\ fst (fst (get_vel (Some vel_half) 1000 1000 initial_globals)) = 0.
Proof.
  destruct (channel_reader_truncates initial_globals fork_150_5 1000 1000)
    as (_ & _ & Hrest & _ & _ & Hret & _).
  { unfold sizeof_double, fork_150_5. simpl. lia. }
  destruct (channel_reader_truncates initial_globals vel_half 1000 1000)
    as (_ & _ & _ & _ & _ & _ & _ & _ & _ & _ & Hvel & _).
  { unfold sizeof_double, vel_half. simpl. lia. }
  destruct Hvel as (Hv & _); [vm_compute; discriminate | ].
  split; [rewrite Hret; vm_compute; reflexivity | ].
  split; [exact Hrest | ].
  rewrite Hv. vm_compute. reflexivity.
Defined.




(** C7. Fork channel timeout exemption.  Once a pass has received a fork
    command, any number of later passes without a new one, whatever their
    clock readings and velocity traffic, keep [_get_fork_pos], the target and
    the position where that command put them, make no servo call, and
    [get_fork] itself hands back the held position with the state untouched;
    the next complete message replaces it. *)
Theorem fork_target_held (g : globals) (i : inputs) (buf : list byte)
    (fuel : nat) (tr : list event) (g1 : globals) :
  fork_client i = Some buf -> (sizeof_double <= length buf)%nat ->
  loop fuel i g = Some (tr, g1) ->
  let pos := int_of_float (doubleConvert_num (firstn sizeof_double buf)) in
  forall (passes : list inputs) (fuel' : nat),
    Forall (fun p => silent (fork_client p)) passes ->
    exists (tr' : list event) (g2 : globals),
      run fuel' passes g1 = Some (tr', g2)
      /\ _get_fork_pos g2 = pos
      /\ servo_target g2 = float_of_int pos
      /\ current_servo g2 = float_of_int pos
      /\ servo_calls tr' = []
      /\ (forall c, silent c -> get_fork c g2 = (pos, c, g2))
      /\ (forall buf', (sizeof_double <= length buf')%nat ->
            fst (fst (get_fork (Some buf') g2))
            = int_of_float (doubleConvert_num (firstn sizeof_double buf'))).
Proof.
  intros Hi Hlen Hloop pos passes fuel' Hsilent.
  destruct (loop_leaves fuel i g tr g1 Hloop) as [Hnew Hmsg].
  assert (Hm : fork_message (fork_client i) = Some pos)
    by (rewrite Hi; apply fork_message_some, Hlen).
  destruct (Hmsg pos Hm) as (Hp1 & Ht1 & Hc1).
  assert (Hnew1 : fork_new g1 = false) by (apply Hnew; right; congruence).
  destruct (run_idle fuel' passes Hsilent g1 Hnew1)
    as (tr' & g2 & Hrun & Hsc & _ & _ & Hc2 & Hp2 & Ht2).
  exists tr', g2.
  split; [exact Hrun | ].
  split; [congruence | ].
  split; [destruct passes; congruence | ].
  split; [congruence | ].
  split; [exact Hsc | ].
  split.
  - intros c Hc. rewrite (get_fork_silent c g2 Hc). congruence.
  - intros buf' Hlen'. now rewrite (get_fork_message buf' g2 Hlen').
Qed.

Lemma fork_target_held_witness :
  exists (tr : list event) (g1 : globals) (tr' : list event) (g2 : globals),
    loop 22 (fork_only fork_150) initial_globals = Some (tr, g1)
    /\ run 0 [quiet 2000; quiet 90000000; quiet 4000000000] g1
       = Some (tr', g2)
    /\ _get_fork_pos g2 = 150
    /\ servo_target g2 = 150
    /\ current_servo g2 = 150
    /\ servo_calls tr' = [].
Proof.
  eexists. eexists.
  match goal with
  | |- exists tr' g2, ?L = Some (?tr, ?g1) /\ _ =>
      assert (Hloop : L = Some (tr, g1)) by (vm_compute; reflexivity)
  end.
  destruct (fork_target_held initial_globals (fork_only fork_150) fork_150
              22%nat _ _ eq_refl
              ltac:(unfold sizeof_double, fork_150; simpl; lia) Hloop
              [quiet 2000; quiet 90000000; quiet 4000000000] 0%nat)
    as (tr' & g2 & Hrun & Hp & Ht & Hc & Hs & _).
  - repeat constructor.
  - exists tr', g2.
    assert (E : int_of_float (doubleConvert_num (firstn sizeof_double fork_150))
                = 150) by (vm_compute; reflexivity).
    rewrite E in Hp, Ht, Hc.
    change (float_of_int 150) with 150 in Ht, Hc.
    repeat split; assumption.
Defined.

(** C8. Smoother idempotence.  A fork command whose target equals the
    current position takes no step, on integers and on IEEE values alike:
    the pass makes no servo call and no pause, leaves the position where it
    is, has the target equal to it (unchanged if the actuator was at rest on
    it) and clears the pending flag.  No fuel is needed. *)
Theorem smoother_idempotent (g : globals) (i : inputs) (buf : list byte)
    (fuel : nat) :
  fork_client i = Some buf -> (sizeof_double <= length buf)%nat ->
  float_of_int (int_of_float (doubleConvert_num (firstn sizeof_double buf)))
  = current_servo g ->
  while_moving fuel (current_servo g) (current_servo g)
  = Some ([], current_servo g)
  /\ (Z.abs (current_servo g) <= 2 ^ 24 ->
      while_moving_binary32 fuel (binary32_of_int (current_servo g))
                            (binary32_of_int (current_servo g))
      = Some ([], binary32_of_int (current_servo g)))
  /\ exists (tr : list event) (g' : globals),
       loop fuel i g = Some (tr, g')
       /\ servo_calls tr = [] /\ pauses tr = []
       /\ current_servo g' = current_servo g
       /\ servo_target g' = current_servo g
       /\ (servo_target g = current_servo g -> servo_target g' = servo_target g)
       /\ fork_new g' = false.
Proof.
  intros Hi Hlen Heq.
  split; [apply while_moving_same | ].
  split.
  { intros Hc. rewrite while_moving_refines, while_moving_same by exact Hc.
    reflexivity. }
  destruct (loop_spec fuel i g) as (l & r & ga & Hga & Hloop).
  rewrite Hi, (fork_message_some buf Hlen) in Hga, Hloop.
  rewrite Heq in Hga, Hloop. rewrite while_moving_same in Hloop.
  apply fork_state_eq in Hga. destruct Hga as (Hn & Hts & Hcs & Hps).
  eexists. eexists. split; [exact Hloop | ].
  cbn [servo_calls pauses driveMotors flat_map app current_servo servo_target
       fork_new with_fork_new with_current_servo].
  repeat split; auto; congruence.
Qed.

Lemma smoother_idempotent_witness :
  exists (tr : list event) (g' : globals),
    loop 0 (fork_only fork_150)
      (with_current_servo 150 (with_servo_target 150 initial_globals))
    = Some (tr, g')
    /\ servo_calls tr = [] /\ pauses tr = []
    /\ current_servo g' = 150 /\ servo_target g' = 150 /\ fork_new g' = false.
Proof.
  destruct (smoother_idempotent
              (with_current_servo 150 (with_servo_target 150 initial_globals))
              (fork_only fork_150) fork_150 0%nat eq_refl)
    as (_ & _ & tr & g' & Hloop & Hs & Hp & Hc & Ht & _ & Hn).
  - vm_compute. lia.
  - vm_compute. reflexivity.
  - exists tr, g'. repeat split; assumption.
Defined.

(** C9, as stated, fails: the target [2^25] is an integer and the position
    moves by whole units, yet the loop never ends.  At [2^24] the sum
    [current_servo + 1] rounds back to [2^24], so the position stops short
    of the target for good, in the IEEE arithmetic as in its reading on
    integers. *)
Lemma smoother_never_ends_past_2p24 :
  doubleConvert_num fork_2p25 = double_of_int (2 ^ 25)
  /\ binary32_add (binary32_of_int (2 ^ 24)) (binary32_of_int 1)
     = binary32_of_int (2 ^ 24)
  /\ (forall fuel : nat,
        while_moving_binary32 fuel (binary32_of_int FORK_MIN)
                              (binary32_of_int (2 ^ 25)) = None)
  /\ ~ (exists fuel : nat,
          loop fuel (fork_only fork_2p25) initial_globals <> None).
Proof.
  split; [vm_compute; reflexivity | ].
  split; [vm_compute; reflexivity | ].
  split.
  { intros fuel. apply while_moving_binary32_stalls. vm_compute. discriminate. }
  intros [fuel Hends]. apply Hends.
  destruct (loop_spec fuel (fork_only fork_2p25) initial_globals)
    as (l & r & ga & _ & Hloop).
  assert (E : fork_message (fork_client (fork_only fork_2p25)) = Some (2 ^ 25))
    by (vm_compute; reflexivity).
  rewrite E in Hloop.
  replace (float_of_int (2 ^ 25)) with (2 ^ 25) in Hloop
    by (vm_compute; reflexivity).
  rewrite while_moving_stalls in Hloop; [exact Hloop | | | ];
    vm_compute; congruence.
Qed.

(** C9, amended.  The target [get_fork] exposes is an [int]: the decoded
    double truncated toward zero.  For every fork command whose truncated
    value is within [2^24 = 16777216] of zero, where binary32 holds every
    integer, and a position within the same range, the loop ends after
    [|target - current|] steps with [current_servo = servo_target], still
    in that range; the loop on IEEE binary32 values ends on the same
    position after the same steps. *)
Theorem smoother_terminates_within_2p24 (g : globals) (i : inputs)
    (buf : list byte) :
  fork_client i = Some buf -> (sizeof_double <= length buf)%nat ->
  let pos := int_of_float (doubleConvert_num (firstn sizeof_double buf)) in
  let steps := Z.to_nat (Z.abs (pos - current_servo g)) in
  Z.abs (current_servo g) <= 2 ^ 24 -> Z.abs pos <= 2 ^ 24 ->
  fst (fst (get_fork (fork_client i) g)) = pos
  /\ INT_MIN <= pos <= INT_MAX
  /\ while_moving_binary32 steps (binary32_of_int (current_servo g))
                           (binary32_of_int pos)
     = in_binary32 (while_moving steps (current_servo g) pos)
  /\ exists (tr : list event) (g' : globals),
       loop steps i g = Some (tr, g')
       /\ length (servo_calls tr) = steps
       /\ current_servo g' = pos
       /\ servo_target g' = pos
       /\ Z.abs (current_servo g') <= 2 ^ 24
       /\ fork_new g' = false.
Proof.
  intros Hi Hlen pos steps Hc Hp.
  split.
  { rewrite Hi, (get_fork_message buf g Hlen). reflexivity. }
  split; [apply int_of_float_range | ].
  split; [apply while_moving_refines; assumption | ].
  destruct (loop_spec steps i g) as (l & r & ga & Hga & Hloop).
  rewrite Hi, (fork_message_some buf Hlen) in Hga, Hloop.
  fold pos in Hga, Hloop.
  rewrite (float_of_int_exact pos Hp) in Hga, Hloop.
  rewrite while_moving_ramp in Hloop by (auto; unfold steps; lia).
  apply fork_state_eq in Hga. destruct Hga as (Hn & Hts & Hcs & Hps).
  eexists. eexists. split; [exact Hloop | ].
  rewrite servo_calls_app, servo_calls_ramp.
  cbn [servo_calls driveMotors flat_map app current_servo servo_target
       fork_new with_fork_new with_current_servo].
  rewrite app_nil_r, length_map, ramp_positions_length.
  repeat split; auto.
Qed.

Lemma smoother_terminates_within_2p24_witness :
  exists (tr : list event) (g' : globals),
    loop 22 (fork_only fork_150) initial_globals = Some (tr, g')
    /\ length (servo_calls tr) = 22%nat
    /\ current_servo g' = 150
    /\ servo_target g' = 150.
Proof.
  pose proof (smoother_terminates_within_2p24 initial_globals
                (fork_only fork_150) fork_150 eq_refl) as H.
  cbv zeta in H.
  assert (E : int_of_float (doubleConvert_num (firstn sizeof_double fork_150))
              = 150) by (vm_compute; reflexivity).
  rewrite E in H.
  change (current_servo initial_globals) with 128 in H.
  change (Z.to_nat (Z.abs (150 - 128))) with 22%nat in H.
  destruct H as (_ & _ & _ & tr & g' & Hloop & Hlen & Hc & Ht & _).
  - unfold sizeof_double, fork_150. simpl. lia.
  - vm_compute. discriminate.
  - vm_compute. discriminate.
  - exists tr, g'. repeat split; assumption.
Defined.

(** C10. No motion before the first fork command.  From the initial state,
    over any number of passes that find no complete fork message, [get_fork]
    returns 0 and [servo_target] is assigned it, yet no pass makes a servo
    call or a pause, [current_servo] stays at [FORK_MIN] and [fork_new] stays
    false; only a complete 8-byte message sets the flag.  The passes need no
    fuel: the while loop is not entered. *)
Theorem no_motion_before_first_fork (passes : list inputs) (fuel : nat) :
  Forall (fun p => silent (fork_client p)) passes ->
  fork_new initial_globals = false
  /\ current_servo initial_globals = FORK_MIN
  /\ (exists (tr : list event) (g' : globals),
        run fuel passes initial_globals = Some (tr, g')
        /\ servo_calls tr = [] /\ pauses tr = []
        /\ current_servo g' = FORK_MIN
        /\ fork_new g' = false
        /\ (passes <> [] -> servo_target g' = 0)
        /\ (forall c, silent c -> fst (fst (get_fork c g')) = 0)
        /\ ~ (FORK_MIN <= 0 <= FORK_MAX))
  /\ (forall (c : client) (g : globals),
        fork_new g = false ->
        (fork_new (snd (get_fork c g)) = true
         <-> exists buf, c = Some buf /\ (sizeof_double <= length buf)%nat)).
Proof.
  intros Hsilent.
  split; [reflexivity | ]. split; [reflexivity | ]. split.
  - destruct (run_idle fuel passes Hsilent initial_globals eq_refl)
      as (tr & g' & Hrun & Hsc & Hpa & Hn & Hc & Hp & Ht).
    exists tr, g'.
    repeat split; auto.
    + intros Hne. rewrite Ht. destruct passes; [congruence | reflexivity].
    + intros c Hc'. rewrite (get_fork_silent c g' Hc'). exact Hp.
    + unfold FORK_MIN. lia.
  - intros c g Hnew.
    destruct (get_fork_spec c g) as [_ Hst].
    apply fork_state_eq in Hst. destruct Hst as (Hn & _).
    rewrite Hn, Hnew. unfold fork_message.
    destruct c as [buf | ].
    + destruct (sizeof_double <=? length buf)%nat eqn:E.
      * apply Nat.leb_le in E. split; [eauto | reflexivity].
      * apply Nat.leb_gt in E. split; [discriminate | ].
        intros (buf' & [= <-] & Hlen). lia.
    + split; [discriminate | ]. intros (buf' & Habs & _). discriminate.
Qed.

Lemma no_motion_before_first_fork_witness :
  exists (tr : list event) (g' : globals),
    run 0 [quiet 10; quiet 600; quiet 86400000] initial_globals
    = Some (tr, g')
    /\ servo_calls tr = [] /\ pauses tr = []
    /\ current_servo g' = FORK_MIN
    /\ fork_new g' = false.
Proof.
  destruct (no_motion_before_first_fork
              [quiet 10; quiet 600; quiet 86400000] 0%nat)
    as (_ & _ & (tr & g' & Hrun & Hs & Hp & Hc & Hn & _) & _).
  - repeat constructor.
  - exists tr, g'. repeat split; assumption.
Defined.

(** ** Further properties *)

(** *** The listeners do not disturb one another *)

Lemma get_vel_frame c rx now g :
  let g' := snd (get_vel c rx now g) in
  _get_ang_vel g' = _get_ang_vel g /\ _get_ang_time g' = _get_ang_time g.
Proof.
  unfold get_vel, receive.
  destruct c as [buf | ]; [destruct (sizeof_double <=? length buf)%nat | ];
    match goal with |- context [500 <? ?x] => destruct (500 <? x) end;
    split; reflexivity.
Qed.

Lemma get_ang_vel_frame c rx now g :
  let g' := snd (get_ang_vel c rx now g) in
  _get_vel_vel g' = _get_vel_vel g /\ _get_vel_time g' = _get_vel_time g.
Proof.
  unfold get_ang_vel, receive.
  destruct c as [buf | ]; [destruct (sizeof_double <=? length buf)%nat | ];
    match goal with |- context [500 <? ?x] => destruct (500 <? x) end;
    split; reflexivity.
Qed.

Lemma get_fork_frame c g : vel_state (snd (get_fork c g)) = vel_state g.
Proof.
  unfold get_fork, receive.
  destruct c as [buf | ]; [destruct (sizeof_double <=? length buf)%nat | ];
    reflexivity.
Qed.

Lemma vel_state_eq (g : globals) (v tv a ta : Z) :
  vel_state g = (v, tv, a, ta) ->
  _get_vel_vel g = v /\ _get_vel_time g = tv
  /\ _get_ang_vel g = a /\ _get_ang_time g = ta.
Proof. unfold vel_state. intros H. injection H. auto. Qed.

(** The smoothing loop calls nothing but the servo and [delay]. *)
Lemma while_moving_events (fuel : nat) :
  forall current target tr final,
    while_moving fuel current target = Some (tr, final) ->
    Forall is_fork_event tr.
Proof.
  induction fuel as [ | fuel IH]; intros current target tr final;
    cbn [while_moving].
  - destruct (current =? target); [ | discriminate].
    intros H. injection H as <- _. constructor.
  - destruct (current =? target).
    + intros H. injection H as <- _. constructor.
    + match goal with
      | |- context [while_moving fuel ?c target] =>
          destruct (while_moving fuel c target) as [[tr' f'] | ] eqn:Hw
      end; [ | discriminate].
      intros H. injection H as <- _.
      cbn [setServo app]. constructor; [exact I | ].
      constructor; [exact I | ]. eapply IH; eauto.
Qed.

(** One pass of [loop], on the side of the wheels: the duties come last,
    from the values the two velocity listeners return in this pass, and the
    velocity globals are as those listeners leave them. *)
Lemma loop_wheels (fuel : nat) (i : inputs) (g : globals)
    (tr : list event) (g' : globals) :
  loop fuel i g = Some (tr, g') ->
  let r1 := get_vel (vel_client i) (vel_rx_millis i) (vel_chk_millis i) g in
  let r2 := get_ang_vel (ang_client i) (ang_rx_millis i) (ang_chk_millis i)
              (snd r1) in
  vel_state g' = vel_state (snd r2)
  /\ exists tr_s,
       tr = tr_s ++ vels_drive_wheels (F := spec_float)
                      (of_int (fst (fst r1))) (of_int (fst (fst r2)))
       /\ Forall is_fork_event tr_s.
Proof.
  intros Hloop r1 r2. subst r1 r2. unfold loop in Hloop.
  destruct (get_vel (vel_client i) (vel_rx_millis i) (vel_chk_millis i) g)
    as [[vel c1] g1].
  cbn [fst snd].
  destruct (get_ang_vel (ang_client i) (ang_rx_millis i) (ang_chk_millis i) g1)
    as [[ang c2] g2].
  cbn [fst snd].
  pose proof (get_fork_frame (fork_client i) g2) as Hf.
  destruct (get_fork (fork_client i) g2) as [[target c3] g3].
  cbn [snd] in Hf.
  cbn [fork_new servo_target current_servo with_servo_target] in Hloop.
  destruct (fork_new g3).
  - destruct (while_moving fuel (current_servo g3) (float_of_int target))
      as [[tr_s final] | ] eqn:Hw; [ | discriminate].
    injection Hloop as <- <-.
    split; [transitivity (vel_state g3); [reflexivity | exact Hf] | ].
    exists tr_s. split; [reflexivity | ].
    exact (while_moving_events _ _ _ _ _ Hw).
  - injection Hloop as <- <-.
    split; [transitivity (vel_state g3); [reflexivity | exact Hf] | ].
    exists []. split; [reflexivity | constructor].
Qed.

Lemma duties_app (tr tr' : list event) :
  duties (tr ++ tr') = duties tr ++ duties tr'.
Proof. unfold duties. apply flat_map_app. Qed.

Lemma duties_fork_events (tr : list event) :
  Forall is_fork_event tr -> duties tr = [].
Proof.
  induction 1 as [ | e tr He _ IH]; [reflexivity | ].
  destruct e; cbn in He |- *; try contradiction; exact IH.
Qed.

Lemma servo_calls_duties (l r : Z) : servo_calls (driveMotors l r) = [].
Proof. reflexivity. Qed.

(** Zero velocities give zero duties, in binary32. *)
Lemma vels_drive_wheels_zero :
  vels_drive_wheels (F := spec_float) (of_int 0) (of_int 0)
  = [M1_setDuty 0; M2_setDuty 0].
Proof. vm_compute. reflexivity. Qed.

(** A silent velocity listener that is stale, or holds zero, returns zero
    and holds zero afterwards. *)
Lemma get_vel_stopped c rx now g :
  silent c -> 500 < elapsed now (_get_vel_time g) \/ _get_vel_vel g = 0 ->
  fst (fst (get_vel c rx now g)) = 0
  /\ _get_vel_vel (snd (get_vel c rx now g)) = 0.
Proof.
  intros Hc H. rewrite (get_vel_silent c rx now g Hc). cbv zeta.
  destruct (500 <? elapsed now (_get_vel_time g)) eqn:E.
  - split; reflexivity.
  - apply Z.ltb_ge in E. destruct H as [H | H]; [lia | ]. cbn [fst snd]. auto.
Qed.

Lemma get_ang_vel_stopped c rx now g :
  silent c -> 500 < elapsed now (_get_ang_time g) \/ _get_ang_vel g = 0 ->
  fst (fst (get_ang_vel c rx now g)) = 0
  /\ _get_ang_vel (snd (get_ang_vel c rx now g)) = 0.
Proof.
  intros Hc H. rewrite (get_ang_vel_silent c rx now g Hc). cbv zeta.
  destruct (500 <? elapsed now (_get_ang_time g)) eqn:E.
  - split; reflexivity.
  - apply Z.ltb_ge in E. destruct H as [H | H]; [lia | ]. cbn [fst snd]. auto.
Qed.

(** A pass whose velocity listeners are both stopped sends zero to both
    motors and leaves both listeners holding zero. *)
Lemma loop_stopped (fuel : nat) (i : inputs) (g : globals)
    (tr : list event) (g' : globals) :
  silent (vel_client i) -> silent (ang_client i) ->
  500 < elapsed (vel_chk_millis i) (_get_vel_time g) \/ _get_vel_vel g = 0 ->
  500 < elapsed (ang_chk_millis i) (_get_ang_time g) \/ _get_ang_vel g = 0 ->
  loop fuel i g = Some (tr, g') ->
  duties tr = [0; 0] /\ _get_vel_vel g' = 0 /\ _get_ang_vel g' = 0.
Proof.
  intros Hv Ha Sv Sa Hloop.
  destruct (loop_wheels fuel i g tr g' Hloop) as (Hst & tr_s & Htr & Hfork).
  destruct (get_vel_stopped (vel_client i) (vel_rx_millis i)
              (vel_chk_millis i) g Hv Sv) as [Hv0 Hv1].
  destruct (get_vel_frame (vel_client i) (vel_rx_millis i)
              (vel_chk_millis i) g) as [Hfa Hft].
  destruct (get_ang_vel_stopped (ang_client i) (ang_rx_millis i)
              (ang_chk_millis i)
              (snd (get_vel (vel_client i) (vel_rx_millis i)
                      (vel_chk_millis i) g)) Ha) as [Ha0 Ha1].
  { rewrite Hfa, Hft. exact Sa. }
  destruct (get_ang_vel_frame (ang_client i) (ang_rx_millis i)
              (ang_chk_millis i)
              (snd (get_vel (vel_client i) (vel_rx_millis i)
                      (vel_chk_millis i) g))) as [Hgv _].
  rewrite Hv0, Ha0, vels_drive_wheels_zero in Htr.
  symmetry in Hst. apply vel_state_eq in Hst.
  destruct Hst as (Hv' & _ & Ha' & _).
  split.
  - rewrite Htr, duties_app, (duties_fork_events _ Hfork). reflexivity.
  - split; congruence.
Qed.

(** X1. Fail-safe stop.  When a pass finds both velocity listeners without
    a new message and each of them stale (more than 500 ms since its last
    message) or already at zero, it sends duty 0 to both motors, and so does
    every later pass for as long as no velocity message arrives, whatever
    the clock reads and whatever happens on the fork listener. *)
Theorem wheels_stop_when_stale (fuel : nat) (i : inputs)
    (passes : list inputs) (g : globals) (tr : list event) (g' : globals) :
  Forall (fun p => silent (vel_client p) /\ silent (ang_client p))
         (i :: passes) ->
  500 < elapsed (vel_chk_millis i) (_get_vel_time g) \/ _get_vel_vel g = 0 ->
  500 < elapsed (ang_chk_millis i) (_get_ang_time g) \/ _get_ang_vel g = 0 ->
  run fuel (i :: passes) g = Some (tr, g') ->
  duties tr = repeat 0 (2 * length (i :: passes))
  /\ _get_vel_vel g' = 0 /\ _get_ang_vel g' = 0.
Proof.
  intros Hall. revert g tr g'.
  remember (i :: passes) as ps eqn:Eps. 
  assert (Gen : forall g tr g',
    (match ps with
     | [] => True
     | p :: _ =>
         (500 < elapsed (vel_chk_millis p) (_get_vel_time g)
          \/ _get_vel_vel g = 0)
         /\ (500 < elapsed (ang_chk_millis p) (_get_ang_time g)
             \/ _get_ang_vel g = 0)
     end) ->
    (ps = [] -> _get_vel_vel g = 0 /\ _get_ang_vel g = 0) ->
    run fuel ps g = Some (tr, g') ->
    duties tr = repeat 0 (2 * length ps)
    /\ _get_vel_vel g' = 0 /\ _get_ang_vel g' = 0).
  { clear Eps. induction Hall as [ | p ps [Hv Ha] Hrest IH];
      intros g tr g' Hst Hnil Hrun.
    - cbn [run] in Hrun. injection Hrun as <- <-.
      destruct (Hnil eq_refl). repeat split; auto.
    - cbn [run] in Hrun. destruct Hst as [Sv Sa].
      destruct (loop fuel p g) as [[tr1 g1] | ] eqn:Hloop; [ | discriminate].
      destruct (run fuel ps g1) as [[tr2 g2] | ] eqn:Hrun2; [ | discriminate].
      injection Hrun as <- <-.
      destruct (loop_stopped fuel p g tr1 g1 Hv Ha Sv Sa Hloop)
        as (Hd & Hv1 & Ha1).
      destruct (IH g1 tr2 g2) as (Hd2 & Hv2 & Ha2).
      + destruct ps; [exact I | ]. split; right; assumption.
      + intros _. split; assumption.
      + exact Hrun2.
      + rewrite duties_app, Hd, Hd2.
        split; [ | split; assumption].
        cbn [length]. replace (2 * S (length ps))%nat
          with (S (S (2 * length ps))) by lia.
        reflexivity. }
  intros g tr g' Sv Sa Hrun. subst ps.
  apply (Gen g tr g'); [split; assumption | discriminate | exact Hrun].
Qed.

Lemma wheels_stop_when_stale_witness :
  let g := with_vel_time 1000 (with_vel 200
             (with_ang_time 1000 (with_ang_vel 3 initial_globals))) in
  let i := {| vel_client := None; vel_rx_millis := 1501;
              vel_chk_millis := 1501;
              ang_client := Some [x00; x01]; ang_rx_millis := 1501;
              ang_chk_millis := 1501;
              fork_client := Some fork_150 |} in
  exists (tr : list event) (g' : globals),
    run 30 [i; quiet 1600] g = Some (tr, g')
    /\ duties tr = [0; 0; 0; 0]
    /\ length (servo_calls tr) = 22%nat.
Proof.
  intros g i. eexists. eexists.
  match goal with
  | |- ?L = Some (?tr, ?g1) /\ _ =>
      assert (Hrun : L = Some (tr, g1)) by (vm_compute; reflexivity)
  end.
  split; [exact Hrun | ].
  assert (Hall : Forall (fun p => silent (vel_client p)
                                  /\ silent (ang_client p))
                        [i; quiet 1600])
    by (repeat constructor; vm_compute; lia).
  assert (Sv : 500 < elapsed (vel_chk_millis i) (_get_vel_time g)
               \/ _get_vel_vel g = 0) by (left; vm_compute; reflexivity).
  assert (Sa : 500 < elapsed (ang_chk_millis i) (_get_ang_time g)
               \/ _get_ang_vel g = 0) by (left; vm_compute; reflexivity).
  destruct (wheels_stop_when_stale 30 i [quiet 1600] g _ _ Hall Sv Sa Hrun)
    as (Hd & _).
  split; [exact Hd | reflexivity].
Defined.

(** *** Ramps in general *)

(** When the loop ends between exact integers, its trace is the ramp,
    whatever the fuel was. *)
Lemma while_moving_is_ramp (fuel : nat) :
  forall current target tr final,
    Z.abs current <= 2 ^ 24 -> Z.abs target <= 2 ^ 24 ->
    while_moving fuel current target = Some (tr, final) ->
    tr = ramp current target /\ final = target.
Proof.
  intros current target tr final Hc Ht Hw.
  assert (Hfuel : while_moving (Nat.max fuel
                    (Z.to_nat (Z.abs (target - current)))) current target
                  = Some (tr, final)).
  { clear Hc Ht.
    generalize (Z.to_nat (Z.abs (target - current))) as n. intros n.
    revert n current tr final Hw.
    induction fuel as [ | fuel IH]; intros n current tr final;
      cbn [while_moving].
    - destruct (current =? target) eqn:E; [ | discriminate].
      intros Hw. destruct (Nat.max 0 n); cbn [while_moving]; now rewrite E.
    - destruct (current =? target) eqn:E.
      + intros Hw. destruct (Nat.max (S fuel) n); cbn [while_moving];
          now rewrite E.
      + match goal with
        | |- context [while_moving fuel ?c target] =>
            set (c' := c);
            destruct (while_moving fuel c' target) as [[tr' f'] | ] eqn:Hw'
        end; [ | discriminate].
        intros Hw.
        replace (Nat.max (S fuel) n) with (S (Nat.max fuel (Nat.pred n)))
          by lia.
        cbn [while_moving]. rewrite E. fold c'.
        now rewrite (IH (Nat.pred n) c' tr' f' Hw'). }
  rewrite while_moving_ramp in Hfuel by (auto; lia).
  injection Hfuel as <- <-. auto.
Qed.

(** The downward counterpart of [while_moving_stalls]. *)
Lemma while_moving_stalls_down (target : Z) (fuel : nat) :
  target < - 2 ^ 24 ->
  forall current, current <= 2 ^ 24 -> - 2 ^ 24 <= current ->
  while_moving fuel current target = None.
Proof.
  intros Ht.
  assert (P24 : 2 ^ 24 = 16777216) by reflexivity.
  induction fuel as [ | fuel IH]; intros current Hc Hc'; cbn [while_moving].
  - assert ((current =? target) = false) as -> by (apply Z.eqb_neq; lia).
    reflexivity.
  - assert ((current =? target) = false) as -> by (apply Z.eqb_neq; lia).
    assert ((current <? target) = false) as -> by (apply Z.ltb_ge; lia).
    assert ((target <? current) = true) as -> by (apply Z.ltb_lt; lia).
    destruct (Z.eq_dec current (- 2 ^ 24)) as [-> | Hne].
    + replace (float_of_int (- 2 ^ 24 - 1)) with (- 2 ^ 24)
        by (vm_compute; reflexivity).
      rewrite IH by lia. reflexivity.
    + rewrite float_of_int_exact by lia.
      rewrite IH by lia. reflexivity.
Qed.

Lemma pauses_ramp (current target : Z) :
  pauses (ramp current target)
  = repeat 20 (Z.to_nat (Z.abs (target - current))).
Proof.
  unfold ramp. rewrite <- ramp_positions_length.
  induction (ramp_positions current target) as [ | p ps IH]; [reflexivity | ].
  cbn [flat_map length repeat]. rewrite pauses_app, IH. reflexivity.
Qed.

Lemma total_repeat (x : Z) (n : nat) : total (repeat x n) = x * Z.of_nat n.
Proof.
  induction n as [ | n IH]; [cbn; lia | ].
  cbn [repeat total fold_right]. fold (total (repeat x n)). rewrite IH. lia.
Qed.

Lemma clamp_range (dec : Z) : FORK_MIN <= clamp dec <= FORK_MAX.
Proof. unfold clamp, FORK_MIN, FORK_MAX. lia. Qed.

Lemma clamp_step (a b : Z) : Z.abs (b - a) <= 1 -> Z.abs (clamp b - clamp a) <= 1.
Proof. unfold clamp, FORK_MIN, FORK_MAX. lia. Qed.

Lemma last_cons_default (x : Z) (l : list Z) (d d' : Z) :
  last (x :: l) d = last (x :: l) d'.
Proof.
  revert x. induction l as [ | y l IH]; intros x; [reflexivity | ].
  change (last (y :: l) d = last (y :: l) d'). apply IH.
Qed.

Lemma one_step_apart_app (a b : Z) (l1 l2 : list Z) :
  one_step_apart (a :: l1) -> last (a :: l1) a = b ->
  one_step_apart (b :: l2) -> one_step_apart (a :: l1 ++ l2).
Proof.
  revert a. induction l1 as [ | x l1 IH]; intros a H1 Hl H2.
  - cbn in Hl. subst b. exact H2.
  - destruct H1 as [Hax H1]. split; [exact Hax | ].
    apply IH; [exact H1 | | exact H2].
    rewrite <- Hl. change (last (a :: x :: l1) a) with (last (x :: l1) a).
    apply last_cons_default.
Qed.

Lemma last_app_cons (a b : Z) (l1 l2 : list Z) :
  last (a :: l1) a = b -> last (a :: l1 ++ l2) a = last (b :: l2) b.
Proof.
  revert a. induction l1 as [ | x l1 IH]; intros a Hl.
  - cbn in Hl. subst b. reflexivity.
  - change (last (a :: (x :: l1) ++ l2) a) with (last (x :: l1 ++ l2) a).
    change (last (a :: x :: l1) a) with (last (x :: l1) a) in Hl.
    rewrite (last_cons_default x (l1 ++ l2) a x).
    rewrite (last_cons_default x l1 a x) in Hl.
    now apply IH.
Qed.

(** The angles of a ramp: from the angle the servo holds, one step at a
    time, to the limited target. *)
Lemma ramp_angles (current target : Z) :
  let angles := clamp current :: servo_calls (ramp current target) in
  one_step_apart angles /\ last angles (clamp current) = clamp target.
Proof.
  cbv zeta. rewrite servo_calls_ramp. fold clamp.
  remember (Z.to_nat (Z.abs (target - current))) as n eqn:En.
  revert current En.
  induction n as [ | n IH]; intros current En.
  - assert (current = target) as -> by lia.
    rewrite ramp_positions_same. cbn. auto.
  - destruct (Z.lt_total current target) as [Hlt | [Heq | Hgt]]; [ | lia | ].
    + rewrite (ramp_positions_up current target Hlt). cbn [map].
      destruct (IH (current + 1) ltac:(lia)) as [Hs Hl].
      split.
      * split; [apply clamp_step; lia | exact Hs].
      * change (last (clamp current :: clamp (current + 1)
                        :: map clamp (ramp_positions (current + 1) target))
                     (clamp current))
          with (last (clamp (current + 1)
                        :: map clamp (ramp_positions (current + 1) target))
                     (clamp current)).
        rewrite <- Hl. apply last_cons_default.
    + rewrite (ramp_positions_down current target Hgt). cbn [map].
      destruct (IH (current - 1) ltac:(lia)) as [Hs Hl].
      split.
      * split; [apply clamp_step; lia | exact Hs].
      * change (last (clamp current :: clamp (current - 1)
                        :: map clamp (ramp_positions (current - 1) target))
                     (clamp current))
          with (last (clamp (current - 1)
                        :: map clamp (ramp_positions (current - 1) target))
                     (clamp current)).
        rewrite <- Hl. apply last_cons_default.
Qed.

(** One pass of [loop], on the side of the fork, from a position binary32
    holds exactly: the trace is the ramp to the position the pass ends on,
    then the two duties. *)
Lemma loop_fork (fuel : nat) (i : inputs) (g : globals)
    (tr : list event) (g' : globals) :
  Z.abs (current_servo g) <= 2 ^ 24 ->
  loop fuel i g = Some (tr, g') ->
  Z.abs (current_servo g') <= 2 ^ 24
  /\ (fork_new g = false \/ fork_message (fork_client i) <> None ->
      fork_new g' = false)
  /\ exists l r,
       tr = ramp (current_servo g) (current_servo g') ++ driveMotors l r.
Proof.
  intros Hc Hloop.
  assert (P24 : 2 ^ 24 = 16777216) by reflexivity.
  destruct (loop_leaves fuel i g tr g' Hloop) as [Hnew _].
  destruct (loop_spec fuel i g) as (l & r & ga & Hga & Hspec).
  rewrite Hloop in Hspec.
  apply fork_state_eq in Hga. destruct Hga as (Hn & Hts & Hcs & Hps).
  destruct (match fork_message (fork_client i) with
            | Some _ => true
            | None => fork_new g
            end).
  - match type of Hspec with
    | context [while_moving fuel ?c ?t] =>
        set (t' := t) in *;
        destruct (while_moving fuel c t') as [[tr' final] | ] eqn:Hw
    end; [ | discriminate].
    injection Hspec as -> ->.
    cbn [current_servo with_fork_new with_current_servo].
    destruct (Z_le_gt_dec (Z.abs t') (2 ^ 24)) as [Ht | Ht].
    + destruct (while_moving_is_ramp fuel _ _ _ _ Hc Ht Hw) as [-> ->].
      split; [exact Ht | ]. split; [exact Hnew | ]. exists l, r. reflexivity.
    + exfalso.
      destruct (Z_lt_le_dec t' 0) as [Hneg | Hpos].
      * rewrite while_moving_stalls_down in Hw by lia. discriminate.
      * rewrite while_moving_stalls in Hw by lia. discriminate.
  - injection Hspec as -> ->. rewrite Hcs.
    split; [exact Hc | ]. split; [exact Hnew | ]. exists l, r.
    unfold ramp. rewrite ramp_positions_same. reflexivity.
Qed.

Lemma app_two_inj (l l' : list event) (a b a' b' : event) :
  l ++ [a; b] = l' ++ [a'; b'] -> l = l' /\ a = a' /\ b = b'.
Proof.
  change [a; b] with ([a] ++ [b]). change [a'; b'] with ([a'] ++ [b']).
  rewrite !app_assoc. intros H.
  apply app_inj_tail in H. destruct H as [H Hb].
  apply app_inj_tail in H. destruct H as [H Ha]. auto.
Qed.

Lemma pauses_duties (l r : Z) : pauses (driveMotors l r) = [].
Proof. reflexivity. Qed.

Lemma duties_ramp (current target : Z) : duties (ramp current target) = [].
Proof.
  unfold ramp. induction (ramp_positions current target) as [ | p ps IH];
    [reflexivity | ].
  cbn [flat_map]. rewrite duties_app, IH. reflexivity.
Qed.

(** X2. The wheels wait for the fork.  A pass that ends, from a position
    binary32 holds exactly, first runs the whole ramp to the position it
    ends on and only then writes the two duties, once each, [M1] before
    [M2].  The duties are computed from the velocities the listeners
    returned at the start of the pass, before the ramp; the pauses of the
    pass add up to 20 ms per unit of distance, during which the motors keep
    the duties of the pass before. *)
Theorem wheels_wait_for_fork (fuel : nat) (i : inputs) (g : globals)
    (tr : list event) (g' : globals) :
  Z.abs (current_servo g) <= 2 ^ 24 ->
  loop fuel i g = Some (tr, g') ->
  let r1 := get_vel (vel_client i) (vel_rx_millis i) (vel_chk_millis i) g in
  let r2 := get_ang_vel (ang_client i) (ang_rx_millis i) (ang_chk_millis i)
              (snd r1) in
  tr = ramp (current_servo g) (current_servo g')
       ++ vels_drive_wheels (F := spec_float)
            (of_int (fst (fst r1))) (of_int (fst (fst r2)))
  /\ total (pauses tr) = 20 * Z.abs (current_servo g' - current_servo g)
  /\ (exists a b, duties tr = [a; b]
                  /\ vels_drive_wheels (F := spec_float)
                       (of_int (fst (fst r1))) (of_int (fst (fst r2)))
                     = [M1_setDuty a; M2_setDuty b])
  /\ servo_calls tr
     = map clamp (ramp_positions (current_servo g) (current_servo g')).
Proof.
  intros Hc Hloop r1 r2.
  destruct (loop_fork fuel i g tr g' Hc Hloop) as (_ & _ & l & r & Hramp).
  destruct (loop_wheels fuel i g tr g' Hloop) as (_ & tr_s & Hwheels & _).
  fold r1 r2 in Hwheels.
  set (V := vels_drive_wheels (F := spec_float)
              (of_int (fst (fst r1))) (of_int (fst (fst r2)))) in *.
  assert (HV : exists a b, V = [M1_setDuty a; M2_setDuty b])
    by (eexists; eexists; reflexivity).
  destruct HV as (a & b & HV).
  assert (Htr : tr = ramp (current_servo g) (current_servo g') ++ V).
  { rewrite Hwheels, HV in Hramp. unfold driveMotors in Hramp.
    apply app_two_inj in Hramp. destruct Hramp as (-> & _ & _).
    rewrite Hwheels, HV. reflexivity. }
  split; [exact Htr | ].
  rewrite Htr, HV.
  split; [ | split].
  - rewrite pauses_app, pauses_ramp. cbn [pauses flat_map app].
    rewrite app_nil_r, total_repeat. lia.
  - exists a, b. rewrite duties_app, duties_ramp. split; reflexivity.
  - rewrite servo_calls_app, servo_calls_ramp. cbn [servo_calls flat_map app].
    apply app_nil_r.
Qed.

Lemma wheels_wait_for_fork_witness :
  exists (tr : list event) (g' : globals),
    loop 30 (fork_only fork_150) initial_globals = Some (tr, g')
    /\ tr = ramp 128 150 ++ [M1_setDuty 0; M2_setDuty 0]
    /\ total (pauses tr) = 440.
Proof.
  eexists. eexists.
  match goal with
  | |- ?L = Some (?tr, ?g1) /\ _ =>
      assert (Hloop : L = Some (tr, g1)) by (vm_compute; reflexivity)
  end.
  split; [exact Hloop | ].
  destruct (wheels_wait_for_fork 30 (fork_only fork_150) initial_globals
              _ _ ltac:(vm_compute; discriminate) Hloop)
    as (Htr & Htot & _).
  split; [reflexivity | exact Htot].
Defined.

(** *** The whole run *)

Lemma board_calls_app (tr tr' : list boot_event) :
  board_calls (tr ++ tr') = board_calls tr ++ board_calls tr'.
Proof. unfold board_calls. apply flat_map_app. Qed.

Lemma board_calls_board (tr : list event) : board_calls (map board tr) = tr.
Proof.
  induction tr as [ | e tr IH]; [reflexivity | ].
  cbn [map board_calls flat_map app]. fold (board_calls (map board tr)).
  now rewrite IH.
Qed.

Lemma repeat_app_length (x : Z) (l l' : list Z) :
  repeat x (length l) ++ repeat x (length l') = repeat x (length (l ++ l')).
Proof. now rewrite length_app, repeat_app. Qed.

(** Over any number of passes the servo is led one step at a time, each
    step with its pause, and the position stays one binary32 holds. *)
Lemma run_fork (fuel : nat) (passes : list inputs) :
  forall (g : globals) (tr : list event) (g' : globals),
    Z.abs (current_servo g) <= 2 ^ 24 ->
    run fuel passes g = Some (tr, g') ->
    let angles := clamp (current_servo g) :: servo_calls tr in
    one_step_apart angles
    /\ last angles (clamp (current_servo g)) = clamp (current_servo g')
    /\ Forall (fun a => FORK_MIN <= a <= FORK_MAX) (servo_calls tr)
    /\ pauses tr = repeat 20 (length (servo_calls tr))
    /\ Z.abs (current_servo g') <= 2 ^ 24
    /\ (fork_new g = false -> fork_new g' = false).
Proof.
  induction passes as [ | i passes IH]; intros g tr g' Hc Hrun; cbv zeta.
  - cbn [run] in Hrun. injection Hrun as <- <-.
    cbn. repeat split; auto.
  - cbn [run] in Hrun.
    destruct (loop fuel i g) as [[tr1 g1] | ] eqn:Hloop; [ | discriminate].
    destruct (run fuel passes g1) as [[tr2 g2] | ] eqn:Hrun2; [ | discriminate].
    injection Hrun as <- <-.
    destruct (loop_fork fuel i g tr1 g1 Hc Hloop) as (Hc1 & Hn1 & l & r & Htr1).
    destruct (IH g1 tr2 g2 Hc1 Hrun2) as (Hs2 & Hl2 & Hb2 & Hp2 & Hc2 & Hn2).
    destruct (ramp_angles (current_servo g) (current_servo g1)) as [Hs1 Hl1].
    assert (Hsc : servo_calls tr1
                  = servo_calls (ramp (current_servo g) (current_servo g1))).
    { rewrite Htr1, servo_calls_app. apply app_nil_r. }
    rewrite servo_calls_app, pauses_app, Hsc.
    split; [ | split; [ | split; [ | split; [ | split]]]].
    + exact (one_step_apart_app _ _ _ _ Hs1 Hl1 Hs2).
    + rewrite (last_app_cons _ _ _ (servo_calls tr2) Hl1).
      exact Hl2.
    + apply Forall_app. split; [ | exact Hb2].
      rewrite servo_calls_ramp. apply Forall_forall. intros a Ha.
      apply in_map_iff in Ha. destruct Ha as (p & <- & _).
      apply clamp_range.
    + rewrite Htr1, pauses_app, pauses_ramp, pauses_duties, app_nil_r, Hp2.
      rewrite servo_calls_ramp, length_app, length_map,
              ramp_positions_length, repeat_app.
      reflexivity.
    + exact Hc2.
    + intros Hn. apply Hn2, Hn1. left. exact Hn.
Qed.

(** X3. The fork moves one step at a time.  Whenever the sketch gets
    through a number of passes, the board was connected, [setup] swung the
    fork to [FORK_MAX] and back to [FORK_MIN], and from there on every angle
    handed to the servo is within one unit of the one before it and inside
    the fork range; each is followed by a 20 ms pause; the last one is the
    limited value of [current_servo], which is still an integer binary32
    holds exactly, and no command is left pending. *)
Theorem fork_moves_one_step_at_a_time (WL_CONNECTED status : Z) (fuel : nat)
    (passes : list inputs) (tr : list boot_event) (g' : globals) :
  sketch WL_CONNECTED status fuel passes = Some (tr, g') ->
  status = WL_CONNECTED
  /\ exists (tr_loop : list event) (rest : list Z),
       run fuel passes initial_globals = Some (tr_loop, g')
       /\ rest = servo_calls tr_loop
       /\ servo_calls (board_calls tr) = FORK_MAX :: FORK_MIN :: rest
       /\ one_step_apart (FORK_MIN :: rest)
       /\ Forall (fun a => FORK_MIN <= a <= FORK_MAX) rest
       /\ pauses tr_loop = repeat 20 (length rest)
       /\ last (FORK_MIN :: rest) FORK_MIN = clamp (current_servo g')
       /\ Z.abs (current_servo g') <= 2 ^ 24
       /\ fork_new g' = false.
Proof.
  unfold sketch, setup. intros Hs.
  destruct (status =? WL_CONNECTED) eqn:E; cbn [negb] in Hs; [ | discriminate].
  apply Z.eqb_eq in E. split; [exact E | ].
  destruct (run fuel passes initial_globals) as [[tr_loop g1] | ] eqn:Hrun;
    [ | discriminate].
  injection Hs as <- <-.
  destruct (run_fork fuel passes initial_globals tr_loop g1
              ltac:(vm_compute; discriminate) Hrun)
    as (Hs1 & Hl1 & Hb1 & Hp1 & Hc1 & Hn1).
  exists tr_loop, (servo_calls tr_loop).
  split; [reflexivity | ]. split; [reflexivity | ].
  split.
  { unfold board_calls. cbn [flat_map app].
    fold (board_calls (map board tr_loop)).
    rewrite board_calls_board. reflexivity. }
  repeat split; auto.
Qed.

Lemma fork_moves_one_step_at_a_time_witness :
  exists (tr : list boot_event) (g' : globals),
    sketch 3 3 60 [fork_only fork_150; quiet 2000; fork_only fork_200]
    = Some (tr, g')
    /\ one_step_apart (FORK_MIN :: skipn 2 (servo_calls (board_calls tr)))
    /\ current_servo g' = 200.
Proof.
  eexists. eexists.
  match goal with
  | |- ?L = Some (?tr, ?g1) /\ _ =>
      assert (Hs : L = Some (tr, g1)) by (vm_compute; reflexivity)
  end.
  split; [exact Hs | ].
  destruct (fork_moves_one_step_at_a_time _ _ _ _ _ _ Hs)
    as (_ & tr_loop & rest & _ & _ & Hcalls & Hstep & _).
  split; [ | reflexivity].
  rewrite Hcalls. exact Hstep.
Defined.

(** *** Commands beyond the fork range and beyond binary32 *)

Lemma ramp_positions_split_up (current mid target : Z) :
  current <= mid <= target ->
  ramp_positions current target
  = ramp_positions current mid ++ ramp_positions mid target.
Proof.
  intros H.
  remember (Z.to_nat (mid - current)) as n eqn:En.
  revert current H En. induction n as [ | n IH]; intros current H En.
  - assert (current = mid) as -> by lia.
    now rewrite ramp_positions_same.
  - rewrite (ramp_positions_up current target) by lia.
    rewrite (ramp_positions_up current mid) by lia.
    rewrite (IH (current + 1)) by lia. reflexivity.
Qed.

Lemma ramp_positions_split_down (current mid target : Z) :
  target <= mid <= current ->
  ramp_positions current target
  = ramp_positions current mid ++ ramp_positions mid target.
Proof.
  intros H.
  remember (Z.to_nat (current - mid)) as n eqn:En.
  revert current H En. induction n as [ | n IH]; intros current H En.
  - assert (current = mid) as -> by lia.
    now rewrite ramp_positions_same.
  - rewrite (ramp_positions_down current target) by lia.
    rewrite (ramp_positions_down current mid) by lia.
    rewrite (IH (current - 1)) by lia. reflexivity.
Qed.

Lemma map_clamp_inside (current target : Z) :
  FORK_MIN <= current <= FORK_MAX -> FORK_MIN <= target <= FORK_MAX ->
  map clamp (ramp_positions current target) = ramp_positions current target.
Proof.
  intros Hc Ht. rewrite <- (map_id (ramp_positions current target)) at 2.
  apply map_ext_in. intros p Hp. apply ramp_positions_between in Hp.
  unfold clamp. lia.
Qed.

Lemma map_clamp_outside (current target bound : Z) :
  (bound = FORK_MAX /\ FORK_MAX <= current /\ FORK_MAX <= target)
  \/ (bound = FORK_MIN /\ current <= FORK_MIN /\ target <= FORK_MIN) ->
  map clamp (ramp_positions current target)
  = repeat bound (Z.to_nat (Z.abs (target - current))).
Proof.
  intros H. rewrite <- ramp_positions_length, <- (length_map clamp).
  apply Forall_eq_repeat. apply Forall_forall. intros a Ha.
  apply in_map_iff in Ha. destruct Ha as (p & <- & Hp).
  apply ramp_positions_between in Hp.
  unfold clamp, FORK_MIN, FORK_MAX in *. lia.
Qed.

(** X4. A command beyond the fork range.  A fork command above [FORK_MAX]
    (and within the integers binary32 holds) is followed to its end: from a
    position inside the range the servo is led up to [FORK_MAX] and then
    handed [FORK_MAX] again once per unit of the excess, with a pause each
    time, so the pass lasts 20 ms per unit of the whole distance although
    the fork stops at the bound; [current_servo] ends on the command.  The
    same holds below [FORK_MIN]. *)
Theorem command_beyond_range_holds_the_bound (fuel : nat) (i : inputs)
    (g : globals) (pos : Z) :
  FORK_MIN <= current_servo g <= FORK_MAX ->
  fork_message (fork_client i) = Some pos ->
  (FORK_MAX <= pos <= 2 ^ 24 \/ - 2 ^ 24 <= pos <= FORK_MIN) ->
  (Z.to_nat (Z.abs (pos - current_servo g)) <= fuel)%nat ->
  exists (tr : list event) (g' : globals),
    loop fuel i g = Some (tr, g')
    /\ current_servo g' = pos
    /\ total (pauses tr) = 20 * Z.abs (pos - current_servo g)
    /\ (FORK_MAX <= pos ->
        servo_calls tr
        = ramp_positions (current_servo g) FORK_MAX
          ++ repeat FORK_MAX (Z.to_nat (pos - FORK_MAX)))
    /\ (pos <= FORK_MIN ->
        servo_calls tr
        = ramp_positions (current_servo g) FORK_MIN
          ++ repeat FORK_MIN (Z.to_nat (FORK_MIN - pos))).
Proof.
  intros Hc Hmsg Hpos Hfuel.
  assert (P24 : 2 ^ 24 = 16777216) by reflexivity.
  assert (Hc24 : Z.abs (current_servo g) <= 2 ^ 24)
    by (unfold FORK_MIN, FORK_MAX in Hc; lia).
  assert (Hp24 : Z.abs pos <= 2 ^ 24)
    by (unfold FORK_MIN, FORK_MAX in Hpos; lia).
  destruct (loop_spec fuel i g) as (l & r & ga & Hga & Hloop).
  rewrite Hmsg in Hga, Hloop.
  rewrite (float_of_int_exact pos Hp24) in Hga, Hloop.
  rewrite while_moving_ramp in Hloop by auto.
  eexists. eexists. split; [exact Hloop | ].
  cbn [current_servo with_fork_new with_current_servo].
  split; [reflexivity | ].
  rewrite pauses_app, pauses_ramp, pauses_duties, app_nil_r, total_repeat.
  split; [lia | ].
  rewrite servo_calls_app, servo_calls_ramp, servo_calls_duties, app_nil_r.
  fold clamp.
  split; intros Hside.
  - rewrite (ramp_positions_split_up (current_servo g) FORK_MAX pos) by lia.
    rewrite map_app, map_clamp_inside
      by (unfold FORK_MIN, FORK_MAX in *; lia).
    rewrite (map_clamp_outside FORK_MAX pos FORK_MAX) by (left; lia).
    do 2 f_equal. lia.
  - rewrite (ramp_positions_split_down (current_servo g) FORK_MIN pos) by lia.
    rewrite map_app, map_clamp_inside
      by (unfold FORK_MIN, FORK_MAX in *; lia).
    rewrite (map_clamp_outside FORK_MIN pos FORK_MIN) by (right; lia).
    do 2 f_equal. lia.
Qed.

Lemma command_beyond_range_holds_the_bound_witness :
  exists (tr : list event) (g' : globals),
    loop 72 (fork_only fork_200) initial_globals = Some (tr, g')
    /\ current_servo g' = 200
    /\ total (pauses tr) = 1440
    /\ servo_calls tr = Zrange 129 52 ++ repeat 180 20.
Proof.
  destruct (command_beyond_range_holds_the_bound 72 (fork_only fork_200)
              initial_globals 200)
    as (tr & g' & Hloop & Hc & Hp & Hup & _).
  - vm_compute. split; discriminate.
  - vm_compute. reflexivity.
  - left. vm_compute. split; discriminate.
  - vm_compute. lia.
  - exists tr, g'. split; [exact Hloop | ]. split; [exact Hc | ].
    split; [exact Hp | ]. apply Hup. vm_compute. discriminate.
Defined.

(** The binary32 value of an integer is within [2^24] of zero exactly for
    the integers up to [2^24 + 1]. *)
Lemma float_of_int_small (z : Z) :
  Z.abs (float_of_int z) <= 2 ^ 24 <-> Z.abs z <= 2 ^ 24 + 1.
Proof.
  assert (P24 : 2 ^ 24 = 16777216) by reflexivity.
  split.
  - intros Hf.
    destruct (Z_le_gt_dec (Z.abs z) (2 ^ 24 + 1)) as [Hz | Hz]; [exact Hz | ].
    exfalso. revert Hf. unfold float_of_int.
    assert ((Z.abs z <=? 2 ^ 24) = false) as -> by (apply Z.leb_gt; lia).
    cbv zeta.
    set (a := Z.abs z) in *.
    assert (Ha : 0 < a) by lia.
    destruct (Z.log2_spec a Ha) as [Hlo Hhi].
    assert (HL : 24 <= Z.log2 a).
    { apply Z.log2_le_pow2; lia. }
    set (L := Z.log2 a) in *.
    remember (2 ^ (L - 23)) as u eqn:Eu.
    assert (Hu : 0 < u) by (subst u; apply Z.pow_pos_nonneg; lia).
    pose proof (round_quotient_bounds a u Hu) as [Hq _].
    assert (Hpow : 2 ^ L = 2 ^ 23 * u).
    { subst u. rewrite <- Z.pow_add_r by lia. f_equal. lia. }
    assert (P23 : 2 ^ 23 = 8388608) by reflexivity.
    assert (Hbig : 2 ^ 24 < round_quotient a u * u).
    { destruct (Z.eq_dec L 24) as [E24 | N24].
      - assert (U2 : u = 2) by (subst u; rewrite E24; reflexivity).
        rewrite U2 in *. assert (2 ^ 23 + 1 <= a / 2).
        { apply Z.div_le_lower_bound; lia. }
        lia.
      - assert (4 <= u).
        { subst u. change 4 with (2 ^ 2).
          apply Z.pow_le_mono_r; lia. }
        assert (2 ^ 23 <= a / u).
        { apply Z.div_le_lower_bound; lia. }
        nia. }
    intros Hf. destruct z as [ | p | p]; cbn [Z.sgn] in Hf; lia.
  - intros Hz.
    destruct (Z_le_gt_dec (Z.abs z) (2 ^ 24)) as [Hs | Hs].
    + now rewrite float_of_int_exact.
    + assert (z = 2 ^ 24 + 1 \/ z = - (2 ^ 24 + 1)) as [-> | ->] by lia;
        vm_compute; discriminate.
Qed.

(** X5. Which fork commands end.  From a position binary32 holds exactly,
    a fork command is followed to its end, for some number of steps, if and
    only if its value is at most [2^24 + 1 = 16777217] in magnitude.  Any
    other command keeps the sketch in the smoothing loop for good: the
    position stops at [2^24] or [- 2^24], where a step of one is rounded
    away. *)
Theorem fork_command_ends_iff (g : globals) (i : inputs) (buf : list byte) :
  fork_client i = Some buf -> (sizeof_double <= length buf)%nat ->
  Z.abs (current_servo g) <= 2 ^ 24 ->
  let pos := decode (firstn sizeof_double buf) in
  (exists fuel : nat, loop fuel i g <> None) <-> Z.abs pos <= 2 ^ 24 + 1.
Proof.
  intros Hi Hlen Hc pos.
  assert (Hmsg : fork_message (fork_client i) = Some pos)
    by (rewrite Hi; apply fork_message_some; exact Hlen).
  rewrite <- float_of_int_small.
  split.
  - intros [fuel Hends].
    destruct (loop fuel i g) as [[tr g'] | ] eqn:Hloop; [ | congruence].
    destruct (loop_fork fuel i g tr g' Hc Hloop) as (Hc' & _).
    destruct (loop_leaves fuel i g tr g' Hloop) as [_ Hpos].
    destruct (Hpos pos Hmsg) as (_ & _ & Hcur).
    rewrite <- Hcur. exact Hc'.
  - intros Hp.
    exists (Z.to_nat (Z.abs (float_of_int pos - current_servo g))).
    destruct (loop_spec (Z.to_nat (Z.abs (float_of_int pos - current_servo g)))
                i g) as (l & r & ga & _ & Hloop).
    rewrite Hmsg in Hloop.
    rewrite while_moving_ramp in Hloop by auto.
    rewrite Hloop. discriminate.
Qed.

Lemma fork_command_ends_iff_witness :
  (exists fuel : nat, loop fuel (fork_only fork_150) initial_globals <> None)
  /\ ~ (exists fuel : nat,
          loop fuel (fork_only fork_2p25) initial_globals <> None).
Proof.
  split.
  - apply (fork_command_ends_iff initial_globals (fork_only fork_150)
             fork_150 eq_refl).
    + unfold sizeof_double, fork_150. simpl. lia.
    + vm_compute. discriminate.
    + vm_compute. discriminate.
  - intros H.
    apply (fork_command_ends_iff initial_globals (fork_only fork_2p25)
             fork_2p25 eq_refl) in H.
    + revert H. vm_compute. intros H. apply H. reflexivity.
    + unfold sizeof_double, fork_2p25. simpl. lia.
    + vm_compute. discriminate.
Defined.

(** *** The listeners *)

Lemma silent_or_message (c : client) :
  silent c \/ exists buf, c = Some buf /\ (sizeof_double <= length buf)%nat.
Proof.
  destruct c as [buf | ]; [ | left; exact I].
  destruct (le_lt_dec sizeof_double (length buf)) as [Hle | Hlt].
  - right. exists buf. auto.
  - left. exact Hlt.
Qed.

(** What a velocity listener returns depends on its own two globals only. *)
Lemma get_vel_depends c rx now g h :
  _get_vel_vel g = _get_vel_vel h -> _get_vel_time g = _get_vel_time h ->
  fst (fst (get_vel c rx now g)) = fst (fst (get_vel c rx now h)).
Proof.
  intros Hv Ht.
  destruct (silent_or_message c) as [Hs | (buf & -> & Hlen)].
  - rewrite !(get_vel_silent c rx now _ Hs). cbv zeta. rewrite Ht.
    destruct (500 <? elapsed now (_get_vel_time h)); cbn [fst];
      [reflexivity | exact Hv].
  - rewrite !(get_vel_message buf rx now _ Hlen). cbv zeta.
    destruct (500 <? elapsed now rx); reflexivity.
Qed.

Lemma get_ang_vel_depends c rx now g h :
  _get_ang_vel g = _get_ang_vel h -> _get_ang_time g = _get_ang_time h ->
  fst (fst (get_ang_vel c rx now g)) = fst (fst (get_ang_vel c rx now h)).
Proof.
  intros Hv Ht.
  destruct (silent_or_message c) as [Hs | (buf & -> & Hlen)].
  - rewrite !(get_ang_vel_silent c rx now _ Hs). cbv zeta. rewrite Ht.
    destruct (500 <? elapsed now (_get_ang_time h)); cbn [fst];
      [reflexivity | exact Hv].
  - rewrite !(get_ang_vel_message buf rx now _ Hlen). cbv zeta.
    destruct (500 <? elapsed now rx); reflexivity.
Qed.

Lemma get_fork_depends c g h :
  _get_fork_pos g = _get_fork_pos h ->
  fst (fst (get_fork c g)) = fst (fst (get_fork c h)).
Proof.
  intros Hp.
  destruct (silent_or_message c) as [Hs | (buf & -> & Hlen)].
  - rewrite !(get_fork_silent c _ Hs). exact Hp.
  - rewrite !(get_fork_message buf _ Hlen). reflexivity.
Qed.

(** X6. The channels do not interfere.  The three listeners decode through
    the one [doubleConvert] union and are polled one after the other, yet
    each returns in a pass what it would return if it were polled alone:
    the value does not depend on the bytes an earlier message left in the
    union, polling a velocity listener changes neither the other velocity
    nor anything of the fork, and polling the fork listener changes neither
    velocity nor its timestamp. *)
Theorem channels_do_not_interfere (g : globals) (cv ca cf : client)
    (rv nv ra na : Z) :
  let r1 := get_vel cv rv nv g in
  let r2 := get_ang_vel ca ra na (snd r1) in
  let r3 := get_fork cf (snd r2) in
  fst (fst r2) = fst (fst (get_ang_vel ca ra na g))
  /\ fst (fst r3) = fst (fst (get_fork cf g))
  /\ vel_state (snd r3)
     = (_get_vel_vel (snd r1), _get_vel_time (snd r1),
        _get_ang_vel (snd (get_ang_vel ca ra na g)),
        _get_ang_time (snd (get_ang_vel ca ra na g)))
  /\ (servo_target (snd r3), current_servo (snd r3))
     = (servo_target g, current_servo g)
  /\ (forall bytes : list byte,
        fst (fst (get_vel cv rv nv (with_doubleConvert bytes g)))
        = fst (fst r1)
        /\ fst (fst (get_ang_vel ca ra na (with_doubleConvert bytes g)))
           = fst (fst (get_ang_vel ca ra na g))
        /\ fst (fst (get_fork cf (with_doubleConvert bytes g)))
           = fst (fst (get_fork cf g))).
Proof.
  intros r1 r2 r3.
  destruct (get_vel_frame cv rv nv g) as [Hva Hvt]. fold r1 in Hva, Hvt.
  destruct (get_ang_vel_frame ca ra na (snd r1)) as [Hav Hat].
  fold r2 in Hav, Hat.
  pose proof (get_fork_frame cf (snd r2)) as Hf. fold r3 in Hf.
  pose proof (get_vel_fork_state cv rv nv g) as Fv. fold r1 in Fv.
  pose proof (get_ang_vel_fork_state ca ra na (snd r1)) as Fa. fold r2 in Fa.
  rewrite Fv in Fa.
  symmetry in Fa. apply fork_state_eq in Fa.
  destruct Fa as (Fn & Ft & Fc & Fp).
  destruct (get_fork_spec cf (snd r2)) as [_ Hst]. fold r3 in Hst.
  apply fork_state_eq in Hst. destruct Hst as (_ & Ht3 & Hc3 & _).
  split; [apply get_ang_vel_depends; assumption | ].
  split; [apply get_fork_depends; symmetry; exact Fp | ].
  split.
  { rewrite Hf. unfold vel_state. rewrite Hav, Hat.
    assert (Hsame : forall h,
              _get_ang_vel h = _get_ang_vel g ->
              _get_ang_time h = _get_ang_time g ->
              _get_ang_vel (snd (get_ang_vel ca ra na h))
              = _get_ang_vel (snd (get_ang_vel ca ra na g))
              /\ _get_ang_time (snd (get_ang_vel ca ra na h))
                 = _get_ang_time (snd (get_ang_vel ca ra na g))).
    { intros h Hv Ht.
      destruct (silent_or_message ca) as [Hs | (buf & -> & Hlen)].
      - rewrite !(get_ang_vel_silent ca ra na _ Hs). cbv zeta. rewrite Ht.
        destruct (500 <? elapsed na (_get_ang_time g)); cbn [snd];
          split; auto.
      - rewrite !(get_ang_vel_message buf ra na _ Hlen). cbv zeta.
        destruct (500 <? elapsed na ra); split; reflexivity. }
    destruct (Hsame (snd r1) Hva Hvt) as [E1 E2]. fold r2 in E1, E2.
    rewrite E1, E2. reflexivity. }
  split; [rewrite Ht3, Hc3, <- Ft, <- Fc; reflexivity | ].
  intros bytes.
  split; [apply get_vel_depends; reflexivity | ].
  split; [apply get_ang_vel_depends; reflexivity | ].
  apply get_fork_depends; reflexivity.
Qed.

Lemma channels_do_not_interfere_witness :
  fst (fst (get_fork (Some fork_150)
              (snd (get_ang_vel None 0 1000
                      (snd (get_vel (Some fork_200) 1000 1000
                              initial_globals))))))
  = fst (fst (get_fork (Some fork_150) initial_globals)).
Proof.
  destruct (channels_do_not_interfere initial_globals (Some fork_200) None
              (Some fork_150) 1000 1000 0 1000) as (_ & H & _).
  exact H.
Defined.

Lemma elapsed_across_wrap (rx d : Z) :
  0 <= d < 2 ^ 32 -> elapsed (wrap_ulong (rx + d)) (wrap_int rx) = d.
Proof.
  intros Hd. unfold elapsed, wrap_ulong, wrap_int.
  assert (M : 2 ^ 32 = 4294967296) by reflexivity.
  assert (H31 : 2 ^ 31 = 2147483648) by reflexivity.
  rewrite M, H31.
  rewrite (Z.mod_eq (rx + d) 4294967296) by lia.
  rewrite (Z.mod_eq (rx + 2147483648) 4294967296) by lia.
  replace (rx + d - 4294967296 * ((rx + d) / 4294967296)
           - (rx + 2147483648
              - 4294967296 * ((rx + 2147483648) / 4294967296) - 2147483648))
    with (d + ((rx + 2147483648) / 4294967296 - (rx + d) / 4294967296)
              * 4294967296) by ring.
  rewrite Z_mod_plus_full. apply Z.mod_small. lia.
Qed.

(** X7. The gate across the wrap of the clock.  A velocity message stored
    at clock reading [rx] is returned by a later poll without a message
    exactly when at most 500 ms have passed, wherever [rx] lies on the
    32-bit millisecond clock: the timestamp is kept in an [int], which is
    negative from [2^31] ms on, and the clock starts again from 0 after
    [2^32] ms, yet the unsigned difference is the time passed, for every
    delay below [2^32] ms. *)
Theorem gate_exact_across_clock_wrap (g : globals) (buf : list byte)
    (rx now0 d rx' : Z) (c : client) :
  (sizeof_double <= length buf)%nat -> elapsed now0 rx <= 500 ->
  silent c -> 0 <= d < 2 ^ 32 ->
  let v := decode (firstn sizeof_double buf) in
  let now := wrap_ulong (rx + d) in
  0 <= now < 2 ^ 32
  /\ fst (fst (get_vel c rx' now (snd (get_vel (Some buf) rx now0 g))))
     = (if d <=? 500 then v else 0)
  /\ fst (fst (get_ang_vel c rx' now
                 (snd (get_ang_vel (Some buf) rx now0 g))))
     = (if d <=? 500 then v else 0).
Proof.
  intros Hlen Hfresh Hc Hd v now.
  assert (Hb : (500 <? elapsed now0 rx) = false) by (apply Z.ltb_ge; lia).
  assert (Gate : (500 <? d) = negb (d <=? 500)).
  { destruct (500 <? d) eqn:E1, (d <=? 500) eqn:E2; try reflexivity.
    - apply Z.ltb_lt in E1. apply Z.leb_le in E2. lia.
    - apply Z.ltb_ge in E1. apply Z.leb_gt in E2. lia. }
  split.
  { unfold now, wrap_ulong. apply Z.mod_pos_bound. reflexivity. }
  split.
  - rewrite (get_vel_message buf rx now0 g Hlen). cbv zeta. rewrite Hb.
    cbn [snd]. rewrite (get_vel_silent c rx' now _ Hc). cbv zeta.
    cbn [_get_vel_time with_vel_time]. unfold now.
    rewrite elapsed_across_wrap by exact Hd. rewrite Gate.
    destruct (d <=? 500); reflexivity.
  - rewrite (get_ang_vel_message buf rx now0 g Hlen). cbv zeta. rewrite Hb.
    cbn [snd]. rewrite (get_ang_vel_silent c rx' now _ Hc). cbv zeta.
    cbn [_get_ang_time with_ang_time]. unfold now.
    rewrite elapsed_across_wrap by exact Hd. rewrite Gate.
    destruct (d <=? 500); reflexivity.
Qed.

Lemma gate_exact_across_clock_wrap_witness :
  fst (fst (get_vel None 0 200
              (snd (get_vel (Some fork_150) 4294967000 4294967000
                      initial_globals)))) = 150
  /\ fst (fst (get_vel None 0 205
                 (snd (get_vel (Some fork_150) 4294967000 4294967000
                         initial_globals)))) = 0.
Proof.
  assert (Hlen : (sizeof_double <= length fork_150)%nat)
    by (unfold sizeof_double, fork_150; simpl; lia).
  assert (E : decode (firstn sizeof_double fork_150) = 150)
    by (vm_compute; reflexivity).
  split.
  - destruct (gate_exact_across_clock_wrap initial_globals fork_150
                4294967000 4294967000 496 0 None Hlen)
      as (_ & Hv & _);
      [vm_compute; discriminate | exact I | vm_compute; split; congruence | ].
    rewrite E in Hv. exact Hv.
  - destruct (gate_exact_across_clock_wrap initial_globals fork_150
                4294967000 4294967000 501 0 None Hlen)
      as (_ & Hv & _);
      [vm_compute; discriminate | exact I | vm_compute; split; congruence | ].
    exact Hv.
Defined.

Lemma drain_fork_messages (msgs : list (list byte)) :
  Forall (fun m => length m = sizeof_double) msgs ->
  forall (rest : list byte) (g : globals),
    fst (drain_fork (length msgs) (Some (concat msgs ++ rest)) g)
    = (map decode msgs, Some rest)
    /\ fork_state (snd (drain_fork (length msgs)
                          (Some (concat msgs ++ rest)) g))
       = (match msgs with [] => fork_new g | _ => true end,
          servo_target g, current_servo g,
          last (map decode msgs) (_get_fork_pos g)).
Proof.
  induction 1 as [ | m msgs Hm _ IH]; intros rest g.
  - split; reflexivity.
  - cbn [length drain_fork concat].
    assert (Hlen : (sizeof_double <= length ((m ++ concat msgs) ++ rest))%nat)
      by (rewrite !length_app; lia).
    assert (Hf : firstn sizeof_double ((m ++ concat msgs) ++ rest) = m).
    { rewrite <- app_assoc, <- Hm, firstn_app, Nat.sub_diag, firstn_all.
      cbn [firstn]. apply app_nil_r. }
    assert (Hk : skipn sizeof_double ((m ++ concat msgs) ++ rest)
                 = concat msgs ++ rest).
    { rewrite <- app_assoc, <- Hm, skipn_app, Nat.sub_diag, skipn_all.
      reflexivity. }
    rewrite (get_fork_message _ g Hlen). cbv zeta. rewrite Hf, Hk.
    fold (decode m).
    set (g1 := with_fork_new true
                 (with_fork_pos (decode m) (with_doubleConvert m g))).
    destruct (IH rest g1) as [Hv Hs].
    destruct (drain_fork (length msgs) (Some (concat msgs ++ rest)) g1)
      as [[vs c''] g''].
    cbn [fst snd] in *. injection Hv as -> ->.
    split; [reflexivity | ].
    rewrite Hs. cbn [map]. unfold g1.
    cbn [fork_new servo_target current_servo _get_fork_pos with_fork_new
         with_fork_pos with_doubleConvert].
    destruct msgs as [ | m' msgs]; [reflexivity | ].
    cbn [map].
    change (last (decode m :: decode m' :: map decode msgs) (_get_fork_pos g))
      with (last (decode m' :: map decode msgs) (_get_fork_pos g)).
    now rewrite (last_cons_default (decode m') (map decode msgs)
                   (decode m) (_get_fork_pos g)).
Qed.

(** X8. Fork messages are taken one per poll, in order.  With [n] whole
    8-byte messages waiting on the fork client, followed by whatever bytes,
    [n] polls return the [n] values in the order they were sent and leave
    exactly the bytes that follow; the position held afterwards is the last
    value.  While fewer than eight bytes are left, every further poll
    returns that last value again and takes nothing. *)
Theorem fork_messages_in_order (msgs : list (list byte)) (rest : list byte)
    (g : globals) :
  Forall (fun m => length m = sizeof_double) msgs ->
  let r := drain_fork (length msgs) (Some (concat msgs ++ rest)) g in
  fst r = (map decode msgs, Some rest)
  /\ _get_fork_pos (snd r) = last (map decode msgs) (_get_fork_pos g)
  /\ (msgs <> [] -> fork_new (snd r) = true)
  /\ ((length rest < sizeof_double)%nat ->
      forall k : nat,
        fst (drain_fork k (Some rest) (snd r))
        = (repeat (last (map decode msgs) (_get_fork_pos g)) k, Some rest)).
Proof.
  intros Hall r.
  destruct (drain_fork_messages msgs Hall rest g) as [Hv Hs]. fold r in Hv, Hs.
  apply fork_state_eq in Hs. destruct Hs as (Hn & _ & _ & Hp).
  split; [exact Hv | ]. split; [exact Hp | ].
  split.
  { intros Hne. rewrite Hn. destruct msgs; [congruence | reflexivity]. }
  intros Hrest k. rewrite <- Hp. generalize (snd r) as h.
  induction k as [ | k IH]; intros h; [reflexivity | ].
  cbn [drain_fork repeat].
  rewrite (get_fork_silent (Some rest) h Hrest).
  specialize (IH h).
  destruct (drain_fork k (Some rest) h) as [[vs c''] g''].
  cbn [fst] in *. injection IH as -> ->. reflexivity.
Qed.

Lemma fork_messages_in_order_witness :
  fst (drain_fork 2 (Some (fork_150 ++ fork_200 ++ [x00; x01])) initial_globals)
  = ([150; 200], Some [x00; x01]).
Proof.
  destruct (fork_messages_in_order [fork_150; fork_200] [x00; x01]
              initial_globals) as (Hv & _).
  - repeat constructor.
  - cbn [length concat app] in Hv.
    replace (map decode [fork_150; fork_200]) with [150; 200] in Hv
      by (vm_compute; reflexivity).
    exact Hv.
Defined.

(** X9. Without a connection nothing moves.  When [WiFi.begin] returns
    anything but [WL_CONNECTED], [setup] never returns: no listener is
    started, the servo and the motors are never written, and no pass of
    [loop] is ever made.  Otherwise [setup] starts the three listeners and
    swings the fork to [FORK_MAX] and back to [FORK_MIN], half a second
    each, before the first pass. *)
Theorem no_connection_no_motion (WL_CONNECTED status : Z) :
  (status <> WL_CONNECTED ->
   (forall fuel passes, sketch WL_CONNECTED status fuel passes = None)
   /\ exists tr,
        setup WL_CONNECTED status = halts tr
        /\ servo_calls (board_calls tr) = []
        /\ duties (board_calls tr) = []
        /\ forall port, ~ In (server_begin port) tr)
  /\ (status = WL_CONNECTED ->
      exists tr,
        setup WL_CONNECTED status = returns tr
        /\ servo_calls (board_calls tr) = [FORK_MAX; FORK_MIN]
        /\ pauses (board_calls tr) = [500; 500; 500]
        /\ duties (board_calls tr) = []
        /\ forall port, In (server_begin port) tr
                        <-> In port [25000; 25002; 25001]).
Proof.
  split.
  - intros Hne. apply Z.eqb_neq in Hne.
    split.
    + intros fuel passes. unfold sketch, setup. now rewrite Hne.
    + unfold setup. rewrite Hne. cbn [negb].
      eexists. split; [reflexivity | ].
      split; [reflexivity | ]. split; [reflexivity | ].
      intros port Hin. cbn in Hin.
      repeat (destruct Hin as [Hin | Hin]; [discriminate | ]). exact Hin.
  - intros ->. unfold setup. rewrite Z.eqb_refl. cbn [negb].
    eexists. split; [reflexivity | ].
    split; [reflexivity | ]. split; [reflexivity | ]. split; [reflexivity | ].
    intros port. cbn. split.
    + intros Hin.
      repeat (destruct Hin as [Hin | Hin];
              [try discriminate; injection Hin as <-; tauto | ]).
      contradiction.
    + intros [<- | [<- | [<- | []]]]; tauto.
Qed.

Lemma no_connection_no_motion_witness :
  sketch 3 4 60 [fork_only fork_150; quiet 2000] = None.
Proof.
  destruct (no_connection_no_motion 3 4) as [Hfail _].
  destruct (Hfail ltac:(discriminate)) as [Hnone _].
  apply Hnone.
Defined.

(** *** Symmetries of the wheel computation in binary32 *)

(** Rounding does not look at the sign. *)
Lemma binary_round_aux_opp (s : bool) (m e : Z) (l : location) :
  binary_round_aux binary32_prec binary32_emax (negb s) m e l
  = SFopp (binary_round_aux binary32_prec binary32_emax s m e l).
Proof.
  unfold binary_round_aux.
  destruct (shr_fexp binary32_prec binary32_emax m e l) as [mrs e'].
  destruct (shr_fexp binary32_prec binary32_emax
              (round_nearest_even (shr_m mrs) (loc_of_shr_record mrs))
              e' loc_Exact) as [mrs' e''].
  destruct (shr_m mrs'); [reflexivity | | reflexivity].
  destruct (e'' <=? binary32_emax - binary32_prec); reflexivity.
Qed.

Lemma binary32_mul_opp (x y : spec_float) :
  binary32_mul (SFopp x) y = SFopp (binary32_mul x y).
Proof.
  unfold binary32_mul.
  destruct x as [sx | sx | | sx mx ex], y as [sy | sy | | sy my ey];
    cbn [SFopp SFmul]; try reflexivity;
    try (destruct sx, sy; reflexivity).
  replace (xorb (negb sx) sy) with (negb (xorb sx sy))
    by (destruct sx, sy; reflexivity).
  apply binary_round_aux_opp.
Qed.

Lemma int_of_float_opp (x : spec_float) :
  INT_MIN < int_of_float x < INT_MAX ->
  int_of_float (SFopp x) = - int_of_float x.
Proof.
  destruct x as [s | s | | s m e]; cbn [SFopp int_of_float SFtrunc].
  - intros _. reflexivity.
  - destruct s; cbn [negb]; lia.
  - intros _. reflexivity.
  - generalize (Z.shiftl (Zpos m) e) as t. intros t.
    unfold sat_int, INT_MIN, INT_MAX.
    destruct s; cbn [negb cond_Zopp]; lia.
Qed.

Lemma binary32_sub_zero_r (x : spec_float) :
  binary32_sub x (S754_zero false) = x.
Proof. destruct x as [[ | ] | [ | ] | | s m e]; reflexivity. Qed.

Lemma binary32_add_zero_l (x : spec_float) :
  binary32_add (S754_zero false) x
  = match x with S754_zero _ => S754_zero false | _ => x end.
Proof. destruct x as [[ | ] | [ | ] | | s m e]; reflexivity. Qed.

Lemma binary32_add_zero_r (x : spec_float) :
  binary32_add x (S754_zero false)
  = match x with S754_zero _ => S754_zero false | _ => x end.
Proof. destruct x as [[ | ] | [ | ] | | s m e]; reflexivity. Qed.

Lemma binary32_sub_zero_l (x : spec_float) :
  binary32_sub (S754_zero false) x
  = match x with S754_zero _ => S754_zero false | _ => SFopp x end.
Proof. destruct x as [[ | ] | [ | ] | | s m e]; reflexivity. Qed.

(** A zero of either sign gives the duty 0. *)
Lemma duty_of_zero (s : bool) :
  int_of_float (binary32_mul (S754_zero s) (binary32_of_int 10)) = 0.
Proof. destruct s; reflexivity. Qed.

(** X10. Driving straight.  With the angular velocity 0 the two wheel
    outputs are the same binary32 value up to the sign of a zero, for every
    linear velocity, finite or not: both motors get the same duty, [M2] as
    it is and [M1], which is mounted the other way round, negated. *)
Theorem straight_drive_equal_duties (lin_v : spec_float) :
  let d := to_int (fmul (fdiv (fmul (of_int 2) lin_v) (of_int 9))
                        (of_int 10)) in
  to_int (fmul (wheel_l lin_v (of_int 0)) (of_int 10)) = d
  /\ to_int (fmul (wheel_r lin_v (of_int 0)) (of_int 10)) = d
  /\ vels_drive_wheels lin_v (of_int 0)
     = [M1_setDuty (wrap_int (- d)); M2_setDuty d]
  /\ INT_MIN <= d <= INT_MAX
  /\ (INT_MIN < d -> wrap_int (- d) = - d).
Proof.
  intros d.
  assert (Hl : to_int (fmul (wheel_l lin_v (of_int 0)) (of_int 10)) = d
               /\ to_int (fmul (wheel_r lin_v (of_int 0)) (of_int 10)) = d).
  { unfold d, wheel_l, wheel_r.
    cbn [of_int fadd fsub fmul fdiv to_int binary32_ops].
    replace (binary32_div (binary32_mul (binary32_of_int 17)
                             (binary32_of_int 0)) (binary32_of_int 18))
      with (S754_zero false) by (vm_compute; reflexivity).
    generalize (binary32_div (binary32_mul (binary32_of_int 2) lin_v)
                  (binary32_of_int 9)) as b.
    intros b. rewrite binary32_sub_zero_r, binary32_add_zero_l.
    split; [reflexivity | ].
    destruct b as [s | s | | s m e]; reflexivity. }
  destruct Hl as [Hl Hr].
  split; [exact Hl | ]. split; [exact Hr | ].
  split; [unfold vels_drive_wheels, driveMotors; now rewrite Hl, Hr | ].
  assert (Hrange : INT_MIN <= d <= INT_MAX) by apply int_of_float_range.
  split; [exact Hrange | ].
  intros Hd. apply wrap_int_id. clearbody d.
  unfold INT_MIN, INT_MAX in *. lia.
Qed.

Lemma straight_drive_equal_duties_witness :
  vels_drive_wheels (F := spec_float) (of_int (- 45)) (of_int 0)
  = [M1_setDuty 100; M2_setDuty (- 100)].
Proof.
  destruct (straight_drive_equal_duties (of_int (- 45))) as (_ & _ & H & _).
  exact H.
Defined.

(** X11. Turning on the spot.  With the linear velocity 0 the left wheel
    output is the negated right one, for every angular velocity whose right
    duty is inside the [int] range: the wheels are driven against each
    other at the same rate, which for the two motor drivers, mounted
    mirrored, is one and the same duty.  At the ends of the range the two
    conversions saturate to [INT_MAX] and [INT_MIN], which are not
    opposite. *)
Theorem turn_on_the_spot_mirrors_the_wheels (ang_v : spec_float) :
  let r := to_int (fmul (fdiv (fmul (of_int 17) ang_v) (of_int 18))
                        (of_int 10)) in
  INT_MIN < r < INT_MAX ->
  to_int (fmul (wheel_r (of_int 0) ang_v) (of_int 10)) = r
  /\ to_int (fmul (wheel_l (of_int 0) ang_v) (of_int 10)) = - r
  /\ vels_drive_wheels (of_int 0) ang_v
     = [M1_setDuty (- r); M2_setDuty (- r)].
Proof.
  intros r Hr.
  assert (H : to_int (fmul (wheel_r (of_int 0) ang_v) (of_int 10)) = r
              /\ to_int (fmul (wheel_l (of_int 0) ang_v) (of_int 10)) = - r).
  { revert Hr. unfold r, wheel_l, wheel_r.
    cbn [of_int fadd fsub fmul fdiv to_int binary32_ops].
    replace (binary32_div (binary32_mul (binary32_of_int 2)
                             (binary32_of_int 0)) (binary32_of_int 9))
      with (S754_zero false) by (vm_compute; reflexivity).
    generalize (binary32_div (binary32_mul (binary32_of_int 17) ang_v)
                  (binary32_of_int 18)) as a.
    intros a Hr. rewrite binary32_sub_zero_l, binary32_add_zero_r.
    destruct a as [s | s | | s m e].
    - rewrite !duty_of_zero. split; reflexivity.
    - split; [reflexivity | ].
      rewrite binary32_mul_opp. now apply int_of_float_opp.
    - split; reflexivity.
    - split; [reflexivity | ].
      rewrite binary32_mul_opp. now apply int_of_float_opp. }
  destruct H as [H1 H2].
  split; [exact H1 | ]. split; [exact H2 | ].
  unfold vels_drive_wheels, driveMotors. rewrite H1, H2.
  rewrite wrap_int_id by (unfold INT_MIN, INT_MAX in *; lia).
  reflexivity.
Qed.

Lemma turn_on_the_spot_mirrors_the_wheels_witness :
  vels_drive_wheels (F := spec_float) (of_int 0) (of_int 3)
  = [M1_setDuty (- 28); M2_setDuty (- 28)].
Proof.
  destruct (turn_on_the_spot_mirrors_the_wheels (of_int 3)) as (_ & _ & H).
  - vm_compute. split; reflexivity.
  - exact H.
Defined.
